(** * Action resolution of the statechart interpreter

    A shallow embedding of [packages/core/src/actions.ts]: the action
    canonicalizer [toActionObject], the [send] family of builders, the
    per-kind resolvers [resolveRaise], [resolveSend], [resolveLog] and the
    driver [resolveActions], followed by the properties the specification
    states about them.

    JavaScript objects are finite maps from property names to values
    (stdpp's [gmap string value]); a property that is absent reads as
    [VUndef].  [Module actions] works on values (an object is the map of its
    enumerable own properties); [Module Refs] models the same canonicalizer
    and driver over a store of object cells, where object identity and
    [Object.defineProperty] are visible. *)

From stdpp Require Import gmap strings list fin_maps pretty.
From Stdlib Require Import ZArith.

#[local] Set Warnings "-register-all".
#[local] Open Scope Z_scope.

(** ** JavaScript values *)

(** Bodies of the functions the embedding has to call.  [Native] is a function
    that actions.ts does not define (one supplied by the user of the library,
    or a method of the language), known only through its results; the other
    three are the arrow functions that actions.ts itself creates. *)
Inductive fncode :=
| Native (fid : nat)
| ForwardEvent      (* forwardTo:      (_, event) => event *)
| RespondTarget     (* respond:        (_, __, { _event }) => _event.origin *)
| DefaultLogExpr.   (* defaultLogExpr: (context, event) => ({ context, event }) *)

Inductive value :=
| VUndef
| VBool (b : bool)
| VNum (n : Z)
| VStr (s : string)
| VFun (name src : string) (code : fncode)
| VObj (o : gmap string value)
| VLocked (o : gmap string value)
| VArr (items : list value)
| VRef (l : nat).

#[global] Instance value_inhabited : Inhabited value := populate VUndef.

(** [VObj o] is an object given by its enumerable own properties, on which
    [toString] can be defined: an extensible object, or one that already has a
    configurable [toString] of its own.  [VLocked o] is an object on which
    [Object.defineProperty(_, 'toString', ...)] raises: a frozen or sealed
    object, or one that is not extensible and has no [toString] of its own.
    Reading does not tell them apart.  [VRef l] is a reference to a cell of an
    object store; only [Module Refs] looks inside it, and the value-level
    definitions never build one. *)

(** [o.k] on a value, for the property names actions.ts reads ([type],
    [event], [delay], ...), none of which [Object.prototype] defines: absent
    properties, and properties of primitives, read as undefined.  (Reading a
    property of [undefined] itself raises in JavaScript; every read below is
    on a value the TypeScript types make an object, or is guarded as in the
    source.) *)
Definition prop (v : value) (k : string) : value :=
  match v with
  | VObj o | VLocked o => o !!! k
  | VFun name _ _ => if String.eqb k "name" then VStr name else VUndef
  | _ => VUndef
  end.

(** [{...v}] *)
Definition spread (v : value) : gmap string value :=
  match v with
  | VObj o | VLocked o => o
  | _ => ∅
  end.

Definition truthy (v : value) : bool :=
  match v with
  | VUndef => false
  | VBool b => b
  | VNum n => negb (n =? 0)
  | VStr s => negb (String.eqb s "")
  | VFun _ _ _ | VObj _ | VLocked _ | VArr _ | VRef _ => true
  end.

(** Modelled from the spec: the type tests [isFunction] and [isString] of
    utils.ts, which is not among the sources. *)
Definition isFunction (v : value) : bool :=
  match v with VFun _ _ _ => true | _ => false end.

Definition isString (v : value) : bool :=
  match v with VStr _ => true | _ => false end.

Definition isNumber (v : value) : bool :=
  match v with VNum _ => true | _ => false end.

(** A plain object, locked or not. *)
Definition isObject (v : value) : bool :=
  match v with VObj _ | VLocked _ => true | _ => false end.


(** The two forms of an [Action] that are not action objects. *)
Definition isNamed (v : value) : bool := isString v || isFunction v.

Definition isUndefined (v : value) : bool :=
  match v with VUndef => true | _ => false end.

(** [v.type === t] for a string constant [t]. *)
Definition hasType (t : string) (v : value) : bool :=
  match prop v "type" with
  | VStr s => String.eqb s t
  | _ => false
  end.

(** ** Outcomes

    A call either returns, raises a [TypeError] (calling something that is not
    a function, [find] on something that has no such method,
    [Object.defineProperty] on a primitive or on an object that does not allow
    it), or exhausts the recursion budget of the model. *)
Inductive outcome (A : Type) :=
| Ok (a : A)
| TypeError
| OutOfFuel.
Arguments Ok {A} a.
Arguments TypeError {A}.
Arguments OutOfFuel {A}.

#[global] Instance outcome_ret : MRet outcome := @Ok.
#[global] Instance outcome_bind : MBind outcome := λ A B f m,
  match m with
  | Ok a => f a
  | TypeError => TypeError
  | OutOfFuel => OutOfFuel
  end.

(** ** The statechart definition, as far as actions.ts reads it *)
Module Machine.
Record MachineOptions := {
  actions : gmap string value;
  guards : gmap string value;
  delays : gmap string value
}.
Record StateNode := {
  id : string;
  options : MachineOptions
}.
End Machine.

(** The constants of actionTypes.ts and [SpecialTargets.Parent] of types.ts;
    neither file is among the sources, so the strings are parameters. *)
Module actionTypes.
Record names := {
  raise : string;
  send : string;
  log : string;
  assign : string;
  choose : string;
  pure : string;
  Parent : string
}.
End actionTypes.

(** Modelled from the spec: [partition] of utils.ts ("partition
    declaredActions, preserving each sublist's relative order, into
    assign-actions and all-other-actions"). *)
Definition partition {A} (items : list A) (predicate : A → bool) : list A * list A :=
  (List.filter predicate items, List.filter (λ item, negb (predicate item)) items).

(** Modelled from the spec: [flatten] of utils.ts ("flatten the per-action
    results into one ordered sequence, preserving relative order"). *)
Definition flatten {A} (array : list (list A)) : list A := concat array.

(** Modelled from the spec: [warn] of utils.ts, a non-fatal diagnostic sent to
    the logging sink when its condition fails; the result is the text
    written. *)
Definition warn (condition : bool) (message : string) : list string :=
  if condition then [] else [message].

(** Modelled from the spec: [toGuard] of utils.ts.  A branch without a guard
    has no guard; a guard reference that names no entry of the guard registry
    is "treated as satisfied (Choose proceeds as if no guard were present)";
    every other guard is handed to the guard evaluator as it is. *)
Definition toGuard (condition : value) (guardMap : gmap string value) : value :=
  match condition with
  | VStr name => if decide (is_Some (guardMap !! name)) then condition else VUndef
  | _ => condition
  end.

(** What resolving contributes: the resolved actions, the value of
    [updatedContext] afterwards, and the diagnostics written. *)
Definition contribution : Type := list value * value * list string.

Module Import actions.
Section Actions.

(** *** External collaborators *)

(** What a plain object inherits: the members of [Object.prototype]
    ([toString], [constructor], [valueOf], ...; reading [__proto__] gives the
    prototype itself).  The registries of a machine are plain objects, so
    [registry[key]] finds these when the registry has no property [key] of its
    own. *)
Variable objectPrototype : gmap string value.
(** Results of the functions actions.ts does not define, applied to their
    argument list.  Calls are taken to return. *)
Variable native : nat → list value → value.
(** [String(v)] for a value that is not already a string. *)
Variable stringOf : value → string.
(** utils.ts, not among the sources. *)
Variable toSCXMLEvent : value → value.
Variable toEventObject : value → value.
Variable getEventType : value → value.
Variable toArray : value → value.
(** The context updater: (context, _event, assignActions, state). *)
Variable updateContext : value → value → list value → value → value.
(** The guard evaluator: (machine, guard, context, _event, state). *)
Variable evaluateGuard : Machine.StateNode → value → value → value → value → bool.
(** [conds.find(callback)] for a [conds] that is no array but an object with a
    [find] method of its own: the result of that method, which is the user's,
    for the receiver and the callback it is given. *)
Variable customFind : value → (value → bool) → value.
(** environment.ts *)
Variable IS_PRODUCTION : bool.
Variable T : actionTypes.names.

(** *** Calls *)

Definition run (code : fncode) (args : list value) : value :=
  match code with
  | Native fid => native fid args
  | ForwardEvent => args !!! 1%nat
  | RespondTarget => prop (prop (args !!! 2%nat) "_event") "origin"
  | DefaultLogExpr =>
      VObj (<["context" := args !!! 0%nat]> (<["event" := args !!! 1%nat]> ∅))
  end.

Definition call (f : value) (args : list value) : outcome value :=
  match f with
  | VFun _ _ code => Ok (run code args)
  | _ => TypeError
  end.

(** [isFunction(x) ? x(ctx, _event.data, meta) : x] *)
Definition evalExpr (x ctx _event : value) : value :=
  match x with
  | VFun _ _ code => run code [ctx; prop _event "data"; VObj {["_event" := _event]}]
  | _ => x
  end.

(** A value used as a property key or inside a template string. *)
Definition toKey (v : value) : string :=
  match v with
  | VStr s => s
  | _ => stringOf v
  end.

(** [map?.[key]] and [map && map[key]]: a property of the registry's own, or
    else the one it inherits. *)
Definition lookupIn (map : option (gmap string value)) (key : string) : value :=
  match map with
  | Some m =>
      match m !! key with
      | Some v => v
      | None => default VUndef (objectPrototype !! key)
      end
  | None => VUndef
  end.

(** *** toActionObject *)

(** The closing [Object.defineProperty(actionObject, 'toString', {value: ...,
    enumerable: false, configurable: true})].  The property it defines is not
    enumerable: it is no entry of the map, and an enumerable [toString] the
    object had is no entry afterwards (see [Refs.toActionObject] for the store
    it writes to).  It raises when [actionObject] is not an object, or is an
    object that does not allow the definition. *)
Definition defineToString (actionObject : value) : outcome value :=
  match actionObject with
  | VObj o => Ok (VObj (delete "toString" o))
  | VArr _ | VFun _ _ _ => Ok actionObject
  | _ => TypeError
  end.

Definition toActionObject (action : value) (actionMap : option (gmap string value))
  : outcome value :=
  match action with
  | VFun name src _ =>
      defineToString
        (VObj (<["type" := VStr (if String.eqb name "" then src else name)]>
                 (<["exec" := action]> ∅)))
  | VStr s =>
      let registeredAction := lookupIn actionMap s in
      if negb (truthy registeredAction) then
        defineToString (VObj (<["type" := action]> ∅))
      else if isFunction registeredAction then
        defineToString (VObj (<["type" := action]> (<["exec" := registeredAction]> ∅)))
      else
        defineToString registeredAction
  | VObj o | VLocked o =>
      let registeredAction := lookupIn actionMap (toKey (o !!! "type")) in
      if isFunction registeredAction then
        defineToString (VObj (<["exec" := registeredAction]> o))
      else if truthy registeredAction then
        defineToString
          (VObj (<["type" := prop registeredAction "type"]> (o ∪ spread registeredAction)))
      else
        defineToString action
  | _ => TypeError  (* no Action: [action.type] or [defineProperty] raises on a primitive *)
  end.

Fixpoint mapM {A B} (f : A → outcome B) (l : list A) : outcome (list B) :=
  match l with
  | [] => Ok []
  | x :: l' => y ← f x; ys ← mapM f l'; Ok (y :: ys)
  end.

Definition toActionObjects (action : value) (actionMap : option (gmap string value))
  : outcome (list value) :=
  if negb (truthy action) then Ok []
  else
    let actions := match action with VArr items => items | _ => [action] end in
    mapM (λ subAction, toActionObject subAction actionMap) actions.

(** *** Builders *)

Definition send (event options : value) : value :=
  VObj (<["to" := if truthy options then prop options "to" else VUndef]>
       (<["type" := VStr (actionTypes.send T)]>
       (<["event" := if isFunction event then event else toEventObject event]>
       (<["delay" := if truthy options then prop options "delay" else VUndef]>
       (<["id" :=
            if truthy options && negb (isUndefined (prop options "id"))
            then prop options "id"
            else if isFunction event then prop event "name"
            else getEventType event]> ∅))))).

Definition sendParent (event options : value) : value :=
  send event (VObj (<["to" := VStr (actionTypes.Parent T)]> (spread options))).

Definition respond (event options : value) : value :=
  send event
    (VObj (<["to" := VFun "to" "(_, __, { _event }) => _event.origin" RespondTarget]>
             (spread options))).

Definition forwardTo (target options : value) : value :=
  send (VFun "" "(_, event) => event" ForwardEvent)
    (VObj (<["to" := target]> (spread options))).

Definition log (expr label : value) : value :=
  VObj (<["type" := VStr (actionTypes.log T)]>
       (<["label" := label]>
       (<["expr" :=
            match expr with
            | VUndef => VFun "defaultLogExpr" "(context, event) => ({ context, event })"
                          DefaultLogExpr
            | _ => expr
            end]> ∅))).

Definition assign (assignment : value) : value :=
  VObj (<["type" := VStr (actionTypes.assign T)]> (<["assignment" := assignment]> ∅)).

Definition pure (getActions : value) : value :=
  VObj (<["type" := VStr (actionTypes.pure T)]> (<["get" := getActions]> ∅)).

Definition choose (conds : list value) : value :=
  VObj (<["type" := VStr (actionTypes.choose T)]> (<["conds" := VArr conds]> ∅)).

(** *** Per-kind resolvers *)

Definition resolveRaise (action : value) : value :=
  VObj (<["type" := VStr (actionTypes.raise T)]>
       (<["_event" := toSCXMLEvent (prop action "event")]> ∅)).

Definition resolveSend (action ctx _event : value) (delaysMap : option (gmap string value))
  : value :=
  let resolvedEvent := toSCXMLEvent (evalExpr (prop action "event") ctx _event) in
  let resolvedDelay :=
    match prop action "delay" with
    | VStr name =>
        let configDelay := lookupIn delaysMap name in
        evalExpr configDelay ctx _event
    | delay => evalExpr delay ctx _event
    end in
  let resolvedTarget := evalExpr (prop action "to") ctx _event in
  VObj (<["to" := resolvedTarget]>
       (<["_event" := resolvedEvent]>
       (<["event" := prop resolvedEvent "data"]>
       (<["delay" := resolvedDelay]> (spread action))))).

Definition resolveLog (action ctx _event : value) : outcome value :=
  v ← (if isString (prop action "expr") then Ok (prop action "expr")
       else call (prop action "expr")
              [ctx; prop _event "data"; VObj {["_event" := _event]}]);
  Ok (VObj (<["value" := v]> (spread action))).

(** *** The driver *)

(** The message of the diagnostic for a delay reference that did not resolve
    to a number. *)
Definition noDelayReference (delay : value) (machine : Machine.StateNode) : string :=
  "No delay reference for delay expression '" +:+ toKey delay +:+
  "' was found on machine '" +:+ Machine.id machine +:+ "'".

(** The predicate of [chooseAction.conds.find(...)]. *)
Definition condMatches (machine : Machine.StateNode) (currentState updatedContext _event : value)
  (condition : value) : bool :=
  let guard := toGuard (prop condition "cond") (Machine.guards (Machine.options machine)) in
  negb (truthy guard) || evaluateGuard machine guard updatedContext _event currentState.

(** [chooseAction.conds.find(callback)?.actions]: [Array.prototype.find] on an
    array, the object's own method on an object that has one, and a
    [TypeError] on anything else, which has no [find] to call. *)
Definition findActions (conds : value) (callback : value → bool) : outcome value :=
  match conds with
  | VArr conds =>
      Ok match List.find callback conds with
         | Some condition => prop condition "actions"
         | None => VUndef
         end
  | _ =>
      if isFunction (prop conds "find") then Ok (prop (customFind conds callback) "actions")
      else TypeError
  end.

(** The body of [otherActions.map((actionObject) => { switch ... })].  The
    callback reads and assigns the variable [updatedContext] of the enclosing
    call, so it takes its current value and returns the new one;
    [resolveActions] stands for the recursive call with the machine, state and
    event of the enclosing call.  A single resolved action is returned as a
    one-element list, which is what [flatten] makes of it. *)
Definition dispatch (resolveActions : value → list value → outcome contribution)
  (machine : Machine.StateNode) (currentState _event : value)
  (actionObject updatedContext : value) : outcome contribution :=
  if hasType (actionTypes.raise T) actionObject then
    Ok ([resolveRaise actionObject], updatedContext, [])
  else if hasType (actionTypes.send T) actionObject then
    let sendAction := actionObject in
    let resolvedSendAction :=
      resolveSend sendAction updatedContext _event
        (Some (Machine.delays (Machine.options machine))) in
    Ok ([resolvedSendAction], updatedContext,
        if negb IS_PRODUCTION then
          warn (negb (isString (prop sendAction "delay"))
                || isNumber (prop resolvedSendAction "delay"))
               (noDelayReference (prop sendAction "delay") machine)
        else [])
  else if hasType (actionTypes.log T) actionObject then
    resolved ← resolveLog actionObject updatedContext _event;
    Ok ([resolved], updatedContext, [])
  else if hasType (actionTypes.choose T) actionObject then
    matchedActions ← findActions (prop actionObject "conds")
                       (condMatches machine currentState updatedContext _event);
    if negb (truthy matchedActions) then Ok ([], updatedContext, [])
    else
      actions ← toActionObjects (toArray matchedActions)
                  (Some (Machine.actions (Machine.options machine)));
      resolveActions updatedContext actions
  else if hasType (actionTypes.pure T) actionObject then
    matchedActions ← call (prop actionObject "get") [updatedContext; prop _event "data"];
    if negb (truthy matchedActions) then Ok ([], updatedContext, [])
    else
      actions ← toActionObjects (toArray matchedActions)
                  (Some (Machine.actions (Machine.options machine)));
      resolveActions updatedContext actions
  else
    resolved ← toActionObject actionObject (Some (Machine.actions (Machine.options machine)));
    Ok ([resolved], updatedContext, []).

(** [otherActions.map(callback)], threading [updatedContext] from one call of
    the callback to the next. *)
Fixpoint resolveEach (callback : value → value → outcome contribution)
  (otherActions : list value) (updatedContext : value)
  : outcome (list (list value) * value * list string) :=
  match otherActions with
  | [] => Ok ([], updatedContext, [])
  | actionObject :: rest =>
      '(result, updatedContext1, written1) ← callback actionObject updatedContext;
      '(results, updatedContext2, written2) ← resolveEach callback rest updatedContext1;
      Ok (result :: results, updatedContext2, written1 ++ written2)
  end.

(** [resolveActions(machine, currentState, currentContext, _event, actions)]:
    the resolved actions and the final context, with the diagnostics written
    on the way.  [fuel] bounds the depth of the nested calls for the branches
    of choose and pure actions. *)
Fixpoint resolveActions (fuel : nat) (machine : Machine.StateNode)
  (currentState currentContext _event : value) (actions : list value)
  : outcome contribution :=
  match fuel with
  | O => OutOfFuel
  | S fuel' =>
      let '(assignActions, otherActions) :=
        partition actions (hasType (actionTypes.assign T)) in
      let updatedContext :=
        match assignActions with
        | [] => currentContext
        | _ => updateContext currentContext _event assignActions currentState
        end in
      '(results, updatedContext', written) ←
        resolveEach
          (dispatch (λ ctx nested, resolveActions fuel' machine currentState ctx _event nested)
             machine currentState _event)
          otherActions updatedContext;
      Ok (flatten results, updatedContext', written)
  end.

(** *** Vocabulary of the properties *)

(** The kind of an action as the driver sees it: the predicate of the
    partition first, then the cases of the switch in their order. *)
Inductive kind := KAssign | KRaise | KSend | KLog | KChoose | KPure | KOther.

Definition kindOf (actionObject : value) : kind :=
  if hasType (actionTypes.assign T) actionObject then KAssign
  else if hasType (actionTypes.raise T) actionObject then KRaise
  else if hasType (actionTypes.send T) actionObject then KSend
  else if hasType (actionTypes.log T) actionObject then KLog
  else if hasType (actionTypes.choose T) actionObject then KChoose
  else if hasType (actionTypes.pure T) actionObject then KPure
  else KOther.

Definition isBranching (k : kind) : bool :=
  match k with KChoose | KPure => true | _ => false end.

(** The kinds resolved to exactly one action. *)
Definition isSingle (k : kind) : bool :=
  match k with KRaise | KSend | KLog | KOther => true | _ => false end.

(** The resolved counterpart of an action that is neither an assign nor a
    choose or pure action, against the context [ctx] (spec 4.4, step 3). *)
Definition counterpart (machine : Machine.StateNode) (ctx _event actionObject : value)
  : outcome value :=
  match kindOf actionObject with
  | KRaise => Ok (resolveRaise actionObject)
  | KSend =>
      Ok (resolveSend actionObject ctx _event
            (Some (Machine.delays (Machine.options machine))))
  | KLog => resolveLog actionObject ctx _event
  | _ => toActionObject actionObject (Some (Machine.actions (Machine.options machine)))
  end.

(** The guard of a branch, as the driver hands it to the guard evaluator. *)
Definition guardOf (machine : Machine.StateNode) (condition : value) : value :=
  toGuard (prop condition "cond") (Machine.guards (Machine.options machine)).

(** The declared branch a choose or pure action selects against [ctx]: the
    actions of the first branch whose guard is absent or satisfied, or what
    the generating function yields; a falsy value when there is none. *)
Definition selectedBranch (machine : Machine.StateNode) (st ctx _event actionObject : value)
  : outcome value :=
  match kindOf actionObject with
  | KChoose => findActions (prop actionObject "conds") (condMatches machine st ctx _event)
  | KPure => call (prop actionObject "get") [ctx; prop _event "data"]
  | _ => Ok VUndef
  end.

(** Order preservation with splicing, in the words of the spec:
    [Spliced fuel machine st _event ctx actions out ctx'] says that [out] is
    the list [actions], read from the left starting in context [ctx], with
    every assign dropped, every choose or pure entry replaced in place by the
    resolved output of its selected branch (nothing when there is none), and
    every other entry replaced by its resolved counterpart; [ctx'] is the
    context at the end. *)
Inductive Spliced (fuel : nat) (machine : Machine.StateNode) (st _event : value)
  : value → list value → list value → value → Prop :=
| Spliced_nil ctx : Spliced fuel machine st _event ctx [] [] ctx
| Spliced_assign a rest ctx out ctx' :
    kindOf a = KAssign →
    Spliced fuel machine st _event ctx rest out ctx' →
    Spliced fuel machine st _event ctx (a :: rest) out ctx'
| Spliced_counterpart a r rest ctx out ctx' :
    isSingle (kindOf a) = true →
    counterpart machine ctx _event a = Ok r →
    Spliced fuel machine st _event ctx rest out ctx' →
    Spliced fuel machine st _event ctx (a :: rest) (r :: out) ctx'
| Spliced_nothing a branch rest ctx out ctx' :
    isBranching (kindOf a) = true →
    selectedBranch machine st ctx _event a = Ok branch →
    truthy branch = false →
    Spliced fuel machine st _event ctx rest out ctx' →
    Spliced fuel machine st _event ctx (a :: rest) out ctx'
| Spliced_branch a branch acts bout ctx1 written rest ctx out ctx' :
    isBranching (kindOf a) = true →
    selectedBranch machine st ctx _event a = Ok branch →
    truthy branch = true →
    toActionObjects (toArray branch) (Some (Machine.actions (Machine.options machine)))
    = Ok acts →
    resolveActions fuel machine st ctx _event acts = Ok (bout, ctx1, written) →
    Spliced fuel machine st _event ctx1 rest out ctx' →
    Spliced fuel machine st _event ctx (a :: rest) (bout ++ out) ctx'.

(** The life of the context during one call.  Read from the left starting in
    context [ctx], an entry that is no choose or pure action leaves the
    context alone, and so does a choose or pure action that selects no branch;
    a choose or pure action that selects a branch replaces the context by the
    one the nested call for that branch, started in the current context,
    returns.  Nothing else happens to it. *)
Inductive Threaded (fuel : nat) (machine : Machine.StateNode) (st _event : value)
  : value → list value → value → Prop :=
| Threaded_nil ctx : Threaded fuel machine st _event ctx [] ctx
| Threaded_keep a rest ctx ctx' :
    isBranching (kindOf a) = false →
    Threaded fuel machine st _event ctx rest ctx' →
    Threaded fuel machine st _event ctx (a :: rest) ctx'
| Threaded_nothing a branch rest ctx ctx' :
    isBranching (kindOf a) = true →
    selectedBranch machine st ctx _event a = Ok branch →
    truthy branch = false →
    Threaded fuel machine st _event ctx rest ctx' →
    Threaded fuel machine st _event ctx (a :: rest) ctx'
| Threaded_replace a branch acts bout ctx1 written rest ctx ctx' :
    isBranching (kindOf a) = true →
    selectedBranch machine st ctx _event a = Ok branch →
    truthy branch = true →
    toActionObjects (toArray branch) (Some (Machine.actions (Machine.options machine)))
    = Ok acts →
    resolveActions fuel machine st ctx _event acts = Ok (bout, ctx1, written) →
    Threaded fuel machine st _event ctx1 rest ctx' →
    Threaded fuel machine st _event ctx (a :: rest) ctx'.

(** Where an action of the assign type in the output comes from: it is the
    canonical form of an action of another type for which the registry holds
    an object of the assign type. *)
Definition fromRegistry (machine : Machine.StateNode) (r : value) : Prop :=
  ∃ a entry,
    kindOf a = KOther
    ∧ lookupIn (Some (Machine.actions (Machine.options machine))) (toKey (prop a "type"))
      = entry
    ∧ hasType (actionTypes.assign T) entry = true
    ∧ toActionObject a (Some (Machine.actions (Machine.options machine))) = Ok r.

(** The context after the top-level assign actions of a list: the value
    [updatedContext] is initialised with. *)
Definition assignFold (currentState currentContext _event : value) (actions : list value)
  : value :=
  let assignActions := List.filter (hasType (actionTypes.assign T)) actions in
  match assignActions with
  | [] => currentContext
  | _ => updateContext currentContext _event assignActions currentState
  end.

(** Consumption of the assign actions, at every depth.  [Consumed ctx actions
    ctx'] says that [ctx'] is what the assign actions of [actions] make of
    [ctx]: the top-level assign actions are handed to the context updater
    together, in their order, and the context it returns is then carried
    through the remaining entries ([Carried]), where every choose or pure
    action that selects a branch has the assign actions of that branch
    consumed in the same way. *)
Inductive Consumed (machine : Machine.StateNode) (st _event : value)
  : value → list value → value → Prop :=
| Consumed_fold ctx actions ctx' :
    Carried machine st _event (assignFold st ctx _event actions) actions ctx' →
    Consumed machine st _event ctx actions ctx'
with Carried (machine : Machine.StateNode) (st _event : value)
  : value → list value → value → Prop :=
| Carried_nil ctx : Carried machine st _event ctx [] ctx
| Carried_keep a rest ctx ctx' :
    isBranching (kindOf a) = false →
    Carried machine st _event ctx rest ctx' →
    Carried machine st _event ctx (a :: rest) ctx'
| Carried_nothing a branch rest ctx ctx' :
    isBranching (kindOf a) = true →
    selectedBranch machine st ctx _event a = Ok branch →
    truthy branch = false →
    Carried machine st _event ctx rest ctx' →
    Carried machine st _event ctx (a :: rest) ctx'
| Carried_branch a branch acts ctx1 rest ctx ctx' :
    isBranching (kindOf a) = true →
    selectedBranch machine st ctx _event a = Ok branch →
    truthy branch = true →
    toActionObjects (toArray branch) (Some (Machine.actions (Machine.options machine)))
    = Ok acts →
    Consumed machine st _event ctx acts ctx1 →
    Carried machine st _event ctx1 rest ctx' →
    Carried machine st _event ctx (a :: rest) ctx'.

End Actions.
End actions.

(** ** Objects with identity

    The same canonicalizer and driver over a store of object cells.  An
    object that exists before a call is a reference [VRef l] to a cell; the
    cell holds the object's enumerable own properties, whether it owns the
    non-enumerable property [toString], and whether it is locked, that is,
    whether defining [toString] on it raises.  An object literal or spread
    allocates a new cell.  An object written inline ([VObj], [VLocked]) is one
    that nothing else refers to, such as the result of a user's function; it
    is given a cell of its own when the canonicalizer first touches it.
    [Object.defineProperty(actionObject, 'toString', ...)], the only write in
    actions.ts to an object it did not just create, updates the cell it is
    given.  Events, envelopes and the branches of a choose action are data
    that is only read, and stay values; arrays stay lists. *)
Module Refs.

Record cell := Cell {
  fields : gmap string value;
  toStringDefined : bool;
  locked : bool
}.

(** The object a value denotes in a store. *)
Definition deref (σ : list cell) (v : value) : value :=
  match v with
  | VRef l =>
      match σ !! l with
      | Some c => if locked c then VLocked (fields c) else VObj (fields c)
      | None => VUndef
      end
  | _ => v
  end.

(** A new object with the given properties. *)
Definition alloc (o : gmap string value) (σ : list cell) : value * list cell :=
  (VRef (length σ), σ ++ [Cell o false false]).

(** The cell of an object: its own when it is referred to, a new one when it
    is written inline. *)
Definition intern (v : value) (σ : list cell) : value * list cell :=
  match v with
  | VObj o => (VRef (length σ), σ ++ [Cell o false false])
  | VLocked o => (VRef (length σ), σ ++ [Cell o false true])
  | _ => (v, σ)
  end.

(** The cell after [toString] has been defined on it: an enumerable
    [toString] is replaced by the one that is not enumerable. *)
Definition defined (c : cell) : cell :=
  Cell (delete "toString" (fields c)) true (locked c).

(** [Object.defineProperty(actionObject, 'toString', {value: ..., enumerable:
    false, configurable: true})] *)
Definition defineToString (actionObject : value) (σ : list cell)
  : outcome (value * list cell) :=
  let '(object, σ1) := intern actionObject σ in
  match object with
  | VRef l =>
      match σ1 !! l with
      | Some c => if locked c then TypeError else Ok (object, <[l := defined c]> σ1)
      | None => TypeError
      end
  | _ => TypeError
  end.

Section Actions.

Variable objectPrototype : gmap string value.
Variable native : nat → list value → value.
Variable stringOf : value → string.
Variable toSCXMLEvent : value → value.
Variable toArray : value → value.
Variable updateContext : value → value → list value → value → value.
Variable evaluateGuard : Machine.StateNode → value → value → value → value → bool.
Variable customFind : value → (value → bool) → value.
Variable IS_PRODUCTION : bool.
Variable T : actionTypes.names.

Definition toActionObject (action : value) (actionMap : option (gmap string value))
  (σ : list cell) : outcome (value * list cell) :=
  match action with
  | VFun name src _ =>
      let '(actionObject, σ1) :=
        alloc (<["type" := VStr (if String.eqb name "" then src else name)]>
                 (<["exec" := action]> ∅)) σ in
      defineToString actionObject σ1
  | VStr s =>
      let registeredAction := lookupIn objectPrototype actionMap s in
      if negb (truthy registeredAction) then
        let '(actionObject, σ1) := alloc (<["type" := action]> ∅) σ in
        defineToString actionObject σ1
      else if isFunction registeredAction then
        let '(actionObject, σ1) :=
          alloc (<["type" := action]> (<["exec" := registeredAction]> ∅)) σ in
        defineToString actionObject σ1
      else
        defineToString registeredAction σ
  | VRef _ | VObj _ | VLocked _ =>
      let '(object, σ0) := intern action σ in
      let o := spread (deref σ0 object) in
      let registeredAction :=
        lookupIn objectPrototype actionMap (toKey stringOf (o !!! "type")) in
      if isUndefined (deref σ0 object) then TypeError
      else if isFunction registeredAction then
        let '(actionObject, σ1) := alloc (<["exec" := registeredAction]> o) σ0 in
        defineToString actionObject σ1
      else if truthy registeredAction then
        let '(actionObject, σ1) :=
          alloc (<["type" := prop (deref σ0 registeredAction) "type"]>
                   (o ∪ spread (deref σ0 registeredAction))) σ0 in
        defineToString actionObject σ1
      else
        defineToString object σ0
  | _ => TypeError
  end.

Fixpoint mapM (f : value → list cell → outcome (value * list cell)) (l : list value)
  (σ : list cell) : outcome (list value * list cell) :=
  match l with
  | [] => Ok ([], σ)
  | x :: l' =>
      '(y, σ1) ← f x σ;
      '(ys, σ2) ← mapM f l' σ1;
      Ok (y :: ys, σ2)
  end.

Definition toActionObjects (action : value) (actionMap : option (gmap string value))
  (σ : list cell) : outcome (list value * list cell) :=
  if negb (truthy action) then Ok ([], σ)
  else
    let actions := match action with VArr items => items | _ => [action] end in
    mapM (λ subAction, toActionObject subAction actionMap) actions σ.

Definition dispatch
  (resolveActions : value → list value → list cell → outcome (contribution * list cell))
  (machine : Machine.StateNode) (currentState _event : value)
  (actionObject updatedContext : value) (σ : list cell)
  : outcome (contribution * list cell) :=
  let object := deref σ actionObject in
  if hasType (actionTypes.raise T) object then
    let '(resolved, σ1) := alloc (spread (resolveRaise toSCXMLEvent T object)) σ in
    Ok (([resolved], updatedContext, []), σ1)
  else if hasType (actionTypes.send T) object then
    let resolvedSendAction :=
      resolveSend objectPrototype native toSCXMLEvent object updatedContext _event
        (Some (Machine.delays (Machine.options machine))) in
    let '(resolved, σ1) := alloc (spread resolvedSendAction) σ in
    Ok (([resolved], updatedContext,
         if negb IS_PRODUCTION then
           warn (negb (isString (prop object "delay"))
                 || isNumber (prop resolvedSendAction "delay"))
                (noDelayReference stringOf (prop object "delay") machine)
         else []), σ1)
  else if hasType (actionTypes.log T) object then
    resolvedLog ← resolveLog native object updatedContext _event;
    let '(resolved, σ1) := alloc (spread resolvedLog) σ in
    Ok (([resolved], updatedContext, []), σ1)
  else if hasType (actionTypes.choose T) object then
    matchedActions ← findActions customFind (prop object "conds")
                       (condMatches evaluateGuard machine currentState updatedContext _event);
    if negb (truthy matchedActions) then Ok (([], updatedContext, []), σ)
    else
      '(actions, σ1) ← toActionObjects (toArray matchedActions)
                         (Some (Machine.actions (Machine.options machine))) σ;
      resolveActions updatedContext actions σ1
  else if hasType (actionTypes.pure T) object then
    matchedActions ← call native (prop object "get") [updatedContext; prop _event "data"];
    if negb (truthy matchedActions) then Ok (([], updatedContext, []), σ)
    else
      '(actions, σ1) ← toActionObjects (toArray matchedActions)
                         (Some (Machine.actions (Machine.options machine))) σ;
      resolveActions updatedContext actions σ1
  else
    '(resolved, σ1) ←
      toActionObject actionObject (Some (Machine.actions (Machine.options machine))) σ;
    Ok (([resolved], updatedContext, []), σ1).

Fixpoint resolveEach
  (callback : value → value → list cell → outcome (contribution * list cell))
  (otherActions : list value) (updatedContext : value) (σ : list cell)
  : outcome (list (list value) * value * list string * list cell) :=
  match otherActions with
  | [] => Ok ([], updatedContext, [], σ)
  | actionObject :: rest =>
      '(result, updatedContext1, written1, σ1) ← callback actionObject updatedContext σ;
      '(results, updatedContext2, written2, σ2) ← resolveEach callback rest updatedContext1 σ1;
      Ok (result :: results, updatedContext2, written1 ++ written2, σ2)
  end.

Fixpoint resolveActions (fuel : nat) (machine : Machine.StateNode)
  (currentState currentContext _event : value) (actions : list value) (σ : list cell)
  : outcome (contribution * list cell) :=
  match fuel with
  | O => OutOfFuel
  | S fuel' =>
      let '(assignActions, otherActions) :=
        partition actions (λ action, hasType (actionTypes.assign T) (deref σ action)) in
      let updatedContext :=
        match assignActions with
        | [] => currentContext
        | _ => updateContext currentContext _event (deref σ <$> assignActions) currentState
        end in
      '(results, updatedContext', written, σ') ←
        resolveEach
          (dispatch (λ ctx nested, resolveActions fuel' machine currentState ctx _event nested)
             machine currentState _event)
          otherActions updatedContext σ;
      Ok ((flatten results, updatedContext', written), σ')
  end.

End Actions.


End Refs.

(** ** A concrete machine

    Collaborators with which the definitions above can be run: the members of
    [Object.prototype], an envelope with the fields the spec names, a context
    updater that folds the assigners in order, a guard evaluator that calls
    the registered predicate. *)
Module Demo.

Definition T : actionTypes.names :=
  {| actionTypes.raise := "xstate.raise"; actionTypes.send := "xstate.send";
     actionTypes.log := "xstate.log"; actionTypes.assign := "xstate.assign";
     actionTypes.choose := "xstate.choose"; actionTypes.pure := "xstate.pure";
     actionTypes.Parent := "#_parent" |}.

Definition count (ctx : value) : Z :=
  match prop ctx "count" with VNum n => n | _ => 0 end.

(** The functions called: 0 is [ctx => ctx.count + 1], 1 is
    [ctx => ctx.count % 2 === 0], 2 is [ctx => ctx.count], 3 is
    [ctx => ctx.count * 1000], 4 is [() => [assign({count: ctx => ctx.count + 1})]],
    6 is [Object.prototype.toString] called without a receiver, and 7 is
    [Object] called as a function on an object or on nothing. *)
Definition native (fid : nat) (args : list value) : value :=
  match fid with
  | 0%nat => VNum (count (args !!! 0%nat) + 1)
  | 1%nat => VBool (count (args !!! 0%nat) mod 2 =? 0)
  | 2%nat => VNum (count (args !!! 0%nat))
  | 3%nat => VNum (count (args !!! 0%nat) * 1000)
  | 4%nat =>
      VArr [VObj (<["type" := VStr "xstate.assign"]>
                 (<["assignment" :=
                      VObj {["count" := VFun "count" "ctx => ctx.count + 1" (Native 0)]}]> ∅))]
  | 6%nat => VStr "[object Undefined]"
  | 7%nat => match args !!! 0%nat with VUndef => VObj ∅ | v => v end
  | _ => VUndef
  end.

(** A method of [Object.prototype]. *)
Definition method (name : string) (fid : nat) : string * value :=
  (name, VFun name ("function " +:+ name +:+ "() { [native code] }") (Native fid)).

(** [Object.prototype] as the language defines it.  Only [toString] and
    [constructor] return when they are called the way actions.ts calls a
    registered function, without a receiver; the other methods stand here to
    be found, not to be called. *)
Definition objectPrototype : gmap string value :=
  list_to_map
    [ ("constructor", VFun "Object" "function Object() { [native code] }" (Native 7));
      method "toString" 6; method "toLocaleString" 8; method "valueOf" 8;
      method "hasOwnProperty" 8; method "isPrototypeOf" 8;
      method "propertyIsEnumerable" 8; method "__defineGetter__" 8;
      method "__defineSetter__" 8; method "__lookupGetter__" 8;
      method "__lookupSetter__" 8; ("__proto__", VObj ∅) ].

(** [String(v)] *)
Definition stringOf (v : value) : string :=
  match v with
  | VUndef => "undefined"
  | VBool b => if b then "true" else "false"
  | VNum n => pretty n
  | VStr s => s
  | VFun _ src _ => src
  | VArr [] => ""
  | _ => "[object Object]"
  end.

Definition toEventObject (event : value) : value :=
  match event with
  | VStr s => VObj {["type" := event]}
  | _ => event
  end.

Definition getEventType (event : value) : value :=
  match event with
  | VStr s => event
  | _ => prop event "type"
  end.

Definition toSCXMLEvent (event : value) : value :=
  let eventObject := toEventObject event in
  VObj (<["name" := prop eventObject "type"]>
       (<["data" := eventObject]>
       (<["$$type" := VStr "scxml"]>
       (<["type" := VStr "external"]> ∅)))).

Definition toArray (v : value) : value :=
  match v with
  | VArr _ => v
  | _ => VArr [v]
  end.

Definition updateContext (context _event : value) (assignActions : list value)
  (state : value) : value :=
  fold_left
    (λ acc assignAction,
       match prop assignAction "assignment" with
       | VFun _ _ code =>
           run native code [acc; prop _event "data"; VObj {["_event" := _event]}]
       | VObj assignment =>
           VObj (((λ v, evalExpr native v acc _event) <$> assignment) ∪ spread acc)
       | _ => acc
       end)
    assignActions context.

Definition evaluateGuard (machine : Machine.StateNode) (guard context _event state : value)
  : bool :=
  let predicate :=
    match guard with
    | VStr name => default VUndef (Machine.guards (Machine.options machine) !! name)
    | _ => guard
    end in
  truthy (evalExpr native predicate context _event).

(** The [find] of a collection object that keeps its branches in [items]. *)
Definition customFind (conds : value) (callback : value → bool) : value :=
  match prop conds "items" with
  | VArr items => default VUndef (List.find callback items)
  | _ => VUndef
  end.

Definition machine : Machine.StateNode :=
  {| Machine.id := "demo";
     Machine.options :=
       {| Machine.actions := ∅;
          Machine.guards := {["isEven" := VFun "isEven" "ctx => ctx.count % 2 === 0" (Native 1)]};
          Machine.delays := {["LONG" := VNum 1000]} |} |}.

Definition ctx (n : Z) : value := VObj {["count" := VNum n]}.

Definition event : value := toSCXMLEvent (VStr "GO").

Definition resolve (IS_PRODUCTION : bool) (m : Machine.StateNode) (fuel : nat)
  (context : value) (actions : list value) : outcome contribution :=
  resolveActions objectPrototype native stringOf toSCXMLEvent toArray updateContext
    evaluateGuard customFind IS_PRODUCTION T fuel m VUndef context event actions.

Definition increment : value :=
  assign T (VObj {["count" := VFun "count" "ctx => ctx.count + 1" (Native 0)]}).

(** [log(ctx => ctx.count)] *)
Definition logCount : value :=
  log T (VFun "" "ctx => ctx.count" (Native 2)) VUndef.

(** [pure(() => [assign({count: ctx => ctx.count + 1})])] *)
Definition pureIncrement : value :=
  pure T (VFun "" "() => [assign({count: ctx => ctx.count + 1})]" (Native 4)).

(** [send('PING', {delay: 'LONG'})] and the same with a delay that is not
    registered. *)
Definition pingLong : gmap string value :=
  spread (send toEventObject getEventType T (VStr "PING") (VObj {["delay" := VStr "LONG"]})).

Definition pingShort : gmap string value :=
  spread (send toEventObject getEventType T (VStr "PING") (VObj {["delay" := VStr "SHORT"]})).

(** [send('PING', {delay: 'toString'})]: no delay of that name is registered. *)
Definition pingToString : gmap string value :=
  spread (send toEventObject getEventType T (VStr "PING")
            (VObj {["delay" := VStr "toString"]})).

(** [choose([{cond: 'isEven', actions: [log('even')]}, {actions: [log('odd')]}])] *)
Definition evenBranch : value :=
  VObj (<["cond" := VStr "isEven"]> {["actions" := VArr [log T (VStr "even") VUndef]]}).

Definition oddBranch : value :=
  VObj {["actions" := VArr [log T (VStr "odd") VUndef]]}.

Definition evenOrOdd : gmap string value := spread (choose T [evenBranch; oddBranch]).

Definition evenOnly : gmap string value := spread (choose T [evenBranch]).

(** A branch guarded by a name the machine does not register. *)
Definition typoBranch : gmap string value :=
  <["cond" := VStr "isEvne"]> {["actions" := VArr [log T (VStr "even") VUndef]]}.

Definition typoChoose : gmap string value := spread (choose T [VObj typoBranch; oddBranch]).

(** A custom action, and a machine whose registry maps its type to an assign
    action object. *)
Definition inc : gmap string value := {["type" := VStr "inc"]}.

Definition machineInc : Machine.StateNode :=
  {| Machine.id := "demo";
     Machine.options :=
       {| Machine.actions := {["inc" := increment]};
          Machine.guards := ∅;
          Machine.delays := ∅ |} |}.

(** A registry with an executable for the custom action [{type: 'greet'}]. *)
Definition greet : gmap string value := {["type" := VStr "greet"]}.

Definition sayHello : value := VFun "sayHello" "() => console.log('hello')" (Native 5).

Definition machineGreet : Machine.StateNode :=
  {| Machine.id := "demo";
     Machine.options :=
       {| Machine.actions := {["greet" := sayHello]};
          Machine.guards := ∅;
          Machine.delays := ∅ |} |}.

(** A custom action whose type is the name of a method every plain object
    inherits. *)
Definition stringify : gmap string value := {["type" := VStr "toString"]}.

(** The lists the properties are tried on. *)
Definition branchThenLog : list value := [pureIncrement; logCount].
Definition branchOnly : list value := [pureIncrement].
Definition assignThenLog : list value := [increment; logCount].
Definition sendThenLog : list value := [VObj pingLong; logCount].
Definition mixed : list value :=
  [logCount; increment; VObj evenOrOdd; pureIncrement; VObj pingLong].
Definition greeting : list value := [increment; VObj greet; pureIncrement; logCount].

(** The same driver over a store. *)
Definition resolveRefs (m : Machine.StateNode) (fuel : nat) (context : value)
  (actions : list value) (σ : list Refs.cell) : outcome (contribution * list Refs.cell) :=
  Refs.resolveActions objectPrototype native stringOf toSCXMLEvent toArray updateContext
    evaluateGuard customFind false T fuel m VUndef context event actions σ.


End Demo.


(** ** The remaining builders of actions.ts

    [raise], [sendUpdate], [cancel], [start], [stop], [toActivityDefinition],
    [isActionObject] and [after].  ([escalate], [done], [doneInvoke] and
    [error] create closures of their own and are not embedded.) *)

(** [actionTypes.cancel], [actionTypes.update], [ActionTypes.Start],
    [ActionTypes.Stop], [ActionTypes.After] and [SpecialTargets.Internal]:
    constants of files that are not among the sources. *)
Module Constants.
Record names := {
  cancel : string;
  update : string;
  Start : string;
  Stop : string;
  After : string;
  Internal : string
}.
End Constants.

Module Import builders.
Section Builders.

Variable objectPrototype : gmap string value.
Variable stringOf : value → string.
Variable toEventObject : value → value.
Variable getEventType : value → value.
Variable T : actionTypes.names.
Variable K : Constants.names.

Definition toActivityDefinition (activity : value) : outcome value :=
  actionObject ← toActionObject objectPrototype stringOf activity None;
  Ok (VObj (<["type" := prop actionObject "type"]>
              (spread actionObject
               ∪ {["id" := if isString activity then activity
                           else prop actionObject "id"]}))).

Definition raise (event : value) : value :=
  if negb (isString event) then
    send toEventObject getEventType T event
      (VObj {["to" := VStr (Constants.Internal K)]})
  else
    VObj (<["type" := VStr (actionTypes.raise T)]> (<["event" := event]> ∅)).

Definition sendUpdate : value :=
  sendParent toEventObject getEventType T (VStr (Constants.update K)) VUndef.

Definition cancel (sendId : value) : value :=
  VObj (<["type" := VStr (Constants.cancel K)]> (<["sendId" := sendId]> ∅)).

Definition start (activity : value) : outcome value :=
  activityDef ← toActivityDefinition activity;
  Ok (VObj (<["type" := VStr (Constants.Start K)]> (<["activity" := activityDef]> ∅))).

Definition stop (activity : value) : outcome value :=
  activityDef ← toActivityDefinition activity;
  Ok (VObj (<["type" := VStr (Constants.Stop K)]> (<["activity" := activityDef]> ∅))).


Definition after (delayRef id : value) : string :=
  let idSuffix := if truthy id then "#" +:+ toKey stringOf id else "" in
  Constants.After K +:+ "(" +:+ toKey stringOf delayRef +:+ ")" +:+ idSuffix.

End Builders.
End builders.

(** Vocabulary of the further properties. *)


(** A result without the diagnostics written on the way. *)
Definition silent {A} (r : outcome (A * value * list string)) : outcome (A * value) :=
  match r with
  | Ok (resolved, context, _) => Ok (resolved, context)
  | TypeError => TypeError
  | OutOfFuel => OutOfFuel
  end.


(** More of the concrete machine. *)
Module DemoMore.

Definition K : Constants.names :=
  {| Constants.cancel := "xstate.cancel"; Constants.update := "xstate.update";
     Constants.Start := "xstate.start"; Constants.Stop := "xstate.stop";
     Constants.After := "xstate.after"; Constants.Internal := "#_internal" |}.

(** An activity definition with fields of its own. *)
Definition beeping : value :=
  VObj (<["type" := VStr "beeping"]> (<["interval" := VNum 1000]> ∅)).




(** A store holding a send action and a log action. *)
Definition sendLogStore : list Refs.cell :=
  [Refs.Cell Demo.pingLong false false; Refs.Cell (spread Demo.logCount) false false].

(** The branch without a guard of [Demo.evenOrOdd]. *)
Definition oddFields : gmap string value :=
  {["actions" := VArr [log Demo.T (VStr "odd") VUndef]]}.

(** Options that try to redirect a derived sender. *)
Definition elsewhere : value :=
  VObj (<["to" := VStr "elsewhere"]> (<["delay" := VNum 10]> ∅)).

(** The same resolution for a given build mode. *)
Definition resolveIn (b : bool) (fuel : nat) (context : value) (acts : list value)
  : outcome contribution :=
  Demo.resolve b Demo.machine fuel context acts.



(** A branch list kept in an object with a [find] of its own. *)
Definition branchBag : value :=
  VObj (<["find" := VFun "find" "function (f) { return this.items.find(f) }" (Native 5)]>
          {["items" := VArr [Demo.evenBranch; Demo.oddBranch]]}).

Definition chooseFromBag : value :=
  VObj (<["type" := VStr "xstate.choose"]> {["conds" := branchBag]}).


End DemoMore.

(** * Properties *)

Section Properties.

Context (objectPrototype : gmap string value)
  (native : nat → list value → value) (stringOf : value → string)
  (toSCXMLEvent toEventObject getEventType toArray : value → value)
  (updateContext : value → value → list value → value → value)
  (evaluateGuard : Machine.StateNode → value → value → value → value → bool)
  (customFind : value → (value → bool) → value)
  (IS_PRODUCTION : bool) (T : actionTypes.names).

#[local] Abbreviation run := (run native).
#[local] Abbreviation call := (call native).
#[local] Abbreviation evalExpr := (evalExpr native).
#[local] Abbreviation toKey := (toKey stringOf).
#[local] Abbreviation lookupIn := (lookupIn objectPrototype).
#[local] Abbreviation toActionObject := (toActionObject objectPrototype stringOf).
#[local] Abbreviation toActionObjects := (toActionObjects objectPrototype stringOf).
#[local] Abbreviation send := (send toEventObject getEventType T).
#[local] Abbreviation sendParent := (sendParent toEventObject getEventType T).
#[local] Abbreviation respond := (respond toEventObject getEventType T).
#[local] Abbreviation forwardTo := (forwardTo toEventObject getEventType T).
#[local] Abbreviation resolveRaise := (resolveRaise toSCXMLEvent T).
#[local] Abbreviation resolveSend := (resolveSend objectPrototype native toSCXMLEvent).
#[local] Abbreviation resolveLog := (resolveLog native).
#[local] Abbreviation noDelayReference := (noDelayReference stringOf).
#[local] Abbreviation condMatches := (condMatches evaluateGuard).
#[local] Abbreviation findActions := (findActions customFind).
#[local] Abbreviation dispatch :=
  (dispatch objectPrototype native stringOf toSCXMLEvent toArray evaluateGuard customFind
     IS_PRODUCTION T).
#[local] Abbreviation resolveActions :=
  (resolveActions objectPrototype native stringOf toSCXMLEvent toArray updateContext
     evaluateGuard customFind IS_PRODUCTION T).
#[local] Abbreviation kindOf := (kindOf T).
#[local] Abbreviation assignFold := (assignFold updateContext T).
#[local] Abbreviation counterpart := (counterpart objectPrototype native stringOf toSCXMLEvent T).
#[local] Abbreviation selectedBranch := (selectedBranch native evaluateGuard customFind T).
#[local] Abbreviation Spliced :=
  (Spliced objectPrototype native stringOf toSCXMLEvent toArray updateContext evaluateGuard
     customFind IS_PRODUCTION T).
#[local] Abbreviation fromRegistry := (fromRegistry objectPrototype stringOf T).
#[local] Abbreviation Threaded :=
  (Threaded objectPrototype native stringOf toSCXMLEvent toArray updateContext evaluateGuard
     customFind IS_PRODUCTION T).
#[local] Abbreviation Consumed :=
  (Consumed objectPrototype native stringOf toArray updateContext evaluateGuard customFind T).
#[local] Abbreviation Carried :=
  (Carried objectPrototype native stringOf toArray updateContext evaluateGuard customFind T).

(** ** Canonicalization against the registry *)

Lemma prop_insert_eq (o : gmap string value) k v : prop (VObj (<[k := v]> o)) k = v.
Proof. unfold prop. by rewrite lookup_total_insert_eq. Qed.

Lemma prop_insert_ne (o : gmap string value) k k' v :
  k ≠ k' → prop (VObj (<[k := v]> o)) k' = prop (VObj o) k'.
Proof. intros. unfold prop. by rewrite lookup_total_insert_ne. Qed.

Lemma prop_lookup (o : gmap string value) k v : o !! k = Some v → prop (VObj o) k = v.
Proof. intros H. unfold prop. by rewrite lookup_total_alt, H. Qed.





(** ** The driver, case by case *)

Lemma resolveActions_S n machine st ctx _event acts :
  resolveActions (S n) machine st ctx _event acts
  = '(results, ctx', written) ←
      resolveEach
        (dispatch (λ c nested, resolveActions n machine st c _event nested) machine st _event)
        (List.filter (λ a, negb (hasType (actionTypes.assign T) a)) acts)
        (assignFold st ctx _event acts);
    Ok (concat results, ctx', written).
Proof. reflexivity. Qed.

Ltac kind_inv H :=
  unfold actions.kindOf in H;
  repeat match type of H with
         | context [hasType ?t ?a] =>
             let E := fresh "Ety" in destruct (hasType t a) eqn:E
         end;
  try discriminate H.

Section Dispatch.

Variables (nested : value → list value → outcome contribution)
  (machine : Machine.StateNode) (st _event : value).

Lemma dispatch_raise a c :
  kindOf a = KRaise → dispatch nested machine st _event a c = Ok ([resolveRaise a], c, []).
Proof. intros H. kind_inv H. unfold actions.dispatch. by rewrite Ety0. Qed.

Lemma dispatch_send a c :
  kindOf a = KSend →
  dispatch nested machine st _event a c
  = Ok ([resolveSend a c _event (Some (Machine.delays (Machine.options machine)))], c,
        if negb IS_PRODUCTION then
          warn (negb (isString (prop a "delay"))
                || isNumber (prop (resolveSend a c _event
                                     (Some (Machine.delays (Machine.options machine))))
                               "delay"))
               (noDelayReference (prop a "delay") machine)
        else []).
Proof. intros H. kind_inv H. unfold actions.dispatch. by rewrite Ety0, Ety1. Qed.

Lemma dispatch_log a c :
  kindOf a = KLog →
  dispatch nested machine st _event a c
  = resolved ← resolveLog a c _event; Ok ([resolved], c, []).
Proof. intros H. kind_inv H. unfold actions.dispatch. by rewrite Ety0, Ety1, Ety2. Qed.

Lemma dispatch_choose a c :
  kindOf a = KChoose →
  dispatch nested machine st _event a c
  = matchedActions ← findActions (prop a "conds") (condMatches machine st c _event);
    if negb (truthy matchedActions) then Ok ([], c, [])
    else
      acts ← toActionObjects (toArray matchedActions)
               (Some (Machine.actions (Machine.options machine)));
      nested c acts.
Proof.
  intros H. kind_inv H. unfold actions.dispatch. by rewrite Ety0, Ety1, Ety2, Ety3.
Qed.

Lemma dispatch_choose_array a c conds :
  kindOf a = KChoose → prop a "conds" = VArr conds →
  dispatch nested machine st _event a c
  = (let matchedActions :=
       match List.find (condMatches machine st c _event) conds with
       | Some condition => prop condition "actions"
       | None => VUndef
       end in
     if negb (truthy matchedActions) then Ok ([], c, [])
     else
       acts ← toActionObjects (toArray matchedActions)
                (Some (Machine.actions (Machine.options machine)));
       nested c acts).
Proof. intros Hk Hc. rewrite dispatch_choose by done. by rewrite Hc. Qed.

Lemma dispatch_pure a c :
  kindOf a = KPure →
  dispatch nested machine st _event a c
  = matchedActions ← call (prop a "get") [c; prop _event "data"];
    if negb (truthy matchedActions) then Ok ([], c, [])
    else
      acts ← toActionObjects (toArray matchedActions)
               (Some (Machine.actions (Machine.options machine)));
      nested c acts.
Proof.
  intros H. kind_inv H. unfold actions.dispatch.
  by rewrite Ety0, Ety1, Ety2, Ety3, Ety4.
Qed.

Lemma dispatch_other a c :
  kindOf a = KOther →
  dispatch nested machine st _event a c
  = resolved ← toActionObject a (Some (Machine.actions (Machine.options machine)));
    Ok ([resolved], c, []).
Proof.
  intros H. kind_inv H. unfold actions.dispatch.
  by rewrite Ety0, Ety1, Ety2, Ety3, Ety4.
Qed.

End Dispatch.

Lemma kindOf_assign a : kindOf a = KAssign ↔ hasType (actionTypes.assign T) a = true.
Proof.
  unfold actions.kindOf. destruct (hasType (actionTypes.assign T) a); [done|].
  split; [|done]. repeat case_match; discriminate.
Qed.

Lemma kindOf_not_assign a : kindOf a ≠ KAssign ↔ hasType (actionTypes.assign T) a = false.
Proof. rewrite kindOf_assign. by destruct (hasType _ a). Qed.

(** ** Delays *)



(** ** The send builders *)

(** C9: [sendParent(e)] resolves to the same action as
    [send(e, {to: SpecialTargets.Parent})], [forwardTo(t)] to the same action
    as [send((_, evt) => evt, {to: t})], and the target of a resolved
    [respond(e)] is the origin of the envelope it is resolved with. *)
Theorem builder_equivalences (e t options ctx _event : value)
  (delaysMap : option (gmap string value)) :
  resolveSend (sendParent e VUndef) ctx _event delaysMap
  = resolveSend (send e (VObj {["to" := VStr (actionTypes.Parent T)]})) ctx _event delaysMap
  ∧ resolveSend (forwardTo t VUndef) ctx _event delaysMap
    = resolveSend (send (VFun "" "(_, event) => event" ForwardEvent) (VObj {["to" := t]}))
        ctx _event delaysMap
  ∧ prop (resolveSend (respond e options) ctx _event delaysMap) "to" = prop _event "origin".
Proof.
  split; [reflexivity|]. split; [reflexivity|].
  unfold actions.resolveSend. rewrite prop_insert_eq.
  unfold actions.respond, actions.send. rewrite prop_insert_eq.
  simpl truthy. cbv iota. rewrite prop_insert_eq.
  unfold actions.evalExpr, actions.run.
  change ([ctx; prop _event "data"; VObj {["_event" := _event]}] !!! 2%nat)
    with (VObj {["_event" := _event]}).
  unfold prop at 2. by rewrite lookup_total_singleton_eq.
Qed.

(** ** Threading the context through the list *)

Lemma resolveEach_app cb l1 l2 c :
  resolveEach cb (l1 ++ l2) c
  = '(r1, c1, w1) ← resolveEach cb l1 c;
    '(r2, c2, w2) ← resolveEach cb l2 c1;
    Ok (r1 ++ r2, c2, w1 ++ w2).
Proof.
  revert c. induction l1 as [|a l1 IH]; intros c; simpl.
  - destruct (resolveEach cb l2 c) as [[[r2 c2] w2]| |]; reflexivity.
  - destruct (cb a c) as [[[r c1] w]| |]; simpl; try reflexivity.
    rewrite IH.
    destruct (resolveEach cb l1 c1) as [[[r1 c1'] w1]| |]; simpl; try reflexivity.
    destruct (resolveEach cb l2 c1') as [[[r2 c2] w2]| |]; simpl; try reflexivity.
    by rewrite app_assoc.
Qed.

Lemma resolveEach_replace cb l1 l2 a a' c :
  (∀ c0, cb a c0 = cb a' c0) →
  resolveEach cb (l1 ++ a :: l2) c = resolveEach cb (l1 ++ a' :: l2) c.
Proof.
  intros Hcb. rewrite !resolveEach_app.
  destruct (resolveEach cb l1 c) as [[[r1 c1] w1]| |]; simpl; try reflexivity.
  by rewrite Hcb.
Qed.

(** ** Fuel

    A result of the driver does not depend on the fuel it was given: more fuel
    gives the same resolved actions, context and diagnostics, or the same
    [TypeError].  A list without choose and pure entries needs no nested call,
    so it never runs out of fuel. *)

Lemma resolveEach_mono cb cb' l :
  (∀ a c, cb a c ≠ OutOfFuel → cb' a c = cb a c) →
  ∀ c, resolveEach cb l c ≠ OutOfFuel → resolveEach cb' l c = resolveEach cb l c.
Proof.
  intros Hcb. induction l as [|a l IH]; intros c Hr; simpl in *; [done|].
  destruct (cb a c) as [[[x c1] w1]| |] eqn:Ha; simpl in *.
  - rewrite Hcb, Ha by (by rewrite Ha). simpl.
    rewrite IH; [done|]. by destruct (resolveEach cb l c1) as [[[xs c2] w2]| |].
  - by rewrite Hcb, Ha by (by rewrite Ha).
  - done.
Qed.

Lemma dispatch_mono nested nested' machine st _event a c :
  (∀ c0 acts, nested c0 acts ≠ OutOfFuel → nested' c0 acts = nested c0 acts) →
  dispatch nested machine st _event a c ≠ OutOfFuel →
  dispatch nested' machine st _event a c = dispatch nested machine st _event a c.
Proof.
  intros Hn. unfold actions.dispatch.
  destruct (hasType (actionTypes.raise T) a); [done|].
  destruct (hasType (actionTypes.send T) a); [done|].
  destruct (hasType (actionTypes.log T) a); [done|].
  assert (Hbranch : ∀ matched,
    (if negb (truthy matched) then Ok ([], c, [])
     else acts ← toActionObjects (toArray matched)
                   (Some (Machine.actions (Machine.options machine)));
          nested c acts) ≠ OutOfFuel →
    (if negb (truthy matched) then Ok ([], c, [])
     else acts ← toActionObjects (toArray matched)
                   (Some (Machine.actions (Machine.options machine)));
          nested' c acts)
    = (if negb (truthy matched) then Ok ([], c, [])
       else acts ← toActionObjects (toArray matched)
                     (Some (Machine.actions (Machine.options machine)));
            nested c acts)).
  { intros matched. destruct (negb (truthy matched)); [done|].
    destruct (toActionObjects _ _) as [acts| |]; simpl; [|done|done].
    apply Hn. }
  destruct (hasType (actionTypes.choose T) a).
  { destruct (findActions _ _) as [matched| |]; simpl; [|done|done]. apply Hbranch. }
  destruct (hasType (actionTypes.pure T) a); [|done].
  destruct (call _ _) as [matched| |]; simpl; [|done|done]. apply Hbranch.
Qed.

Lemma resolveActions_fuel_S n machine st :
  ∀ ctx _event acts,
    resolveActions n machine st ctx _event acts ≠ OutOfFuel →
    resolveActions (S n) machine st ctx _event acts
    = resolveActions n machine st ctx _event acts.
Proof.
  induction n as [|n IH]; intros ctx _event acts Hr; [done|].
  rewrite resolveActions_S in Hr. rewrite (resolveActions_S (S n)), (resolveActions_S n).
  rewrite (resolveEach_mono
             (dispatch (λ c nested, resolveActions n machine st c _event nested)
                machine st _event)); [done| |].
  - intros a c. apply dispatch_mono. intros c0 nest. apply IH.
  - intros He. by rewrite He in Hr.
Qed.

Lemma resolveActions_fuel_le n n' machine st ctx _event acts :
  (n ≤ n')%nat →
  resolveActions n machine st ctx _event acts ≠ OutOfFuel →
  resolveActions n' machine st ctx _event acts
  = resolveActions n machine st ctx _event acts.
Proof.
  induction 1 as [|n' _ IH]; [done|].
  intros Hr. rewrite resolveActions_fuel_S; [by apply IH|]. by rewrite IH.
Qed.



Lemma hasType_insert_ne t k v (o : gmap string value) :
  k ≠ "type" → hasType t (VObj (<[k := v]> o)) = hasType t (VObj o).
Proof. intros. unfold hasType. by rewrite prop_insert_ne. Qed.

Lemma kindOf_insert_ne k v (o : gmap string value) :
  k ≠ "type" → kindOf (VObj (<[k := v]> o)) = kindOf (VObj o).
Proof. intros. unfold actions.kindOf. by rewrite !hasType_insert_ne. Qed.

Lemma assignFold_replace st ctx _event l1 l2 a a' :
  kindOf a ≠ KAssign → kindOf a' ≠ KAssign →
  assignFold st ctx _event (l1 ++ a :: l2) = assignFold st ctx _event (l1 ++ a' :: l2).
Proof.
  intros Ha Ha'. apply kindOf_not_assign in Ha, Ha'.
  unfold actions.assignFold. rewrite !List.filter_app. simpl. by rewrite Ha, Ha'.
Qed.

Lemma others_replace l1 l2 a a' :
  kindOf a ≠ KAssign → kindOf a' ≠ KAssign →
  List.filter (λ x, negb (hasType (actionTypes.assign T) x)) (l1 ++ a :: l2)
  = List.filter (λ x, negb (hasType (actionTypes.assign T) x)) l1
    ++ a :: List.filter (λ x, negb (hasType (actionTypes.assign T) x)) l2
  ∧ List.filter (λ x, negb (hasType (actionTypes.assign T) x)) (l1 ++ a' :: l2)
    = List.filter (λ x, negb (hasType (actionTypes.assign T) x)) l1
      ++ a' :: List.filter (λ x, negb (hasType (actionTypes.assign T) x)) l2.
Proof.
  intros Ha Ha'. apply kindOf_not_assign in Ha, Ha'.
  rewrite !List.filter_app. simpl. by rewrite Ha, Ha'.
Qed.

(** ** Choose *)

Lemma find_first {A} (P : A → bool) pre x post :
  Forall (λ y, P y = false) pre → P x = true → List.find P (pre ++ x :: post) = Some x.
Proof.
  induction 1 as [|y pre Hy _ IH]; intros Hx; simpl.
  - by rewrite Hx.
  - rewrite Hy. by apply IH.
Qed.

Lemma find_nothing {A} (P : A → bool) l :
  Forall (λ y, P y = false) l → List.find P l = None.
Proof. induction 1 as [|y l Hy _ IH]; simpl; [done|]. by rewrite Hy. Qed.

Lemma condMatches_no_guard machine st ctx _event c :
  prop c "cond" = VUndef → condMatches machine st ctx _event c = true.
Proof. intros H. unfold actions.condMatches. by rewrite H. Qed.

Lemma condMatches_unregistered machine st ctx _event c g :
  prop c "cond" = VStr g → Machine.guards (Machine.options machine) !! g = None →
  condMatches machine st ctx _event c = true.
Proof.
  intros H Hg. unfold actions.condMatches. rewrite H. unfold toGuard. rewrite Hg.
  case_decide as Hs; [|done]. by destruct Hs.
Qed.

(** C7: a branch of a choose action whose guard reference names no entry of
    the guard registry is satisfied, and the list resolves exactly as it does
    with that branch's guard removed; in particular the unregistered name
    raises nothing that the unguarded branch would not.  (The guard lookup
    [toGuard] is the one modelled from the spec.) *)
Theorem choose_unregistered_guard (o c : gmap string value) (pre post l1 l2 : list value)
  (g : string) (machine : Machine.StateNode) (st ctx _event : value) (fuel : nat) :
  kindOf (VObj o) = KChoose →
  o !! "conds" = Some (VArr (pre ++ VObj c :: post)) →
  c !! "cond" = Some (VStr g) →
  Machine.guards (Machine.options machine) !! g = None →
  (∀ ctx', condMatches machine st ctx' _event (VObj c) = true)
  ∧ resolveActions fuel machine st ctx _event (l1 ++ VObj o :: l2)
    = resolveActions fuel machine st ctx _event
        (l1 ++ VObj (<["conds" := VArr (pre ++ VObj (delete "cond" c) :: post)]> o) :: l2).
Proof.
  intros Hk Hconds Hcond Hg.
  assert (Hm : ∀ ctx', condMatches machine st ctx' _event (VObj c) = true).
  { intros ctx'. eapply condMatches_unregistered; [|done]. by apply prop_lookup. }
  assert (Hm' : ∀ ctx', condMatches machine st ctx' _event (VObj (delete "cond" c)) = true).
  { intros ctx'. apply condMatches_no_guard. unfold prop.
    by rewrite lookup_total_delete_eq. }
  split; [done|].
  destruct fuel as [|n]; [reflexivity|].
  set (o' := <["conds" := VArr (pre ++ VObj (delete "cond" c) :: post)]> o).
  assert (Hk' : kindOf (VObj o') = KChoose) by (unfold o'; by rewrite kindOf_insert_ne).
  assert (Hna : kindOf (VObj o) ≠ KAssign) by (by rewrite Hk).
  assert (Hna' : kindOf (VObj o') ≠ KAssign) by (by rewrite Hk').
  rewrite !resolveActions_S.
  rewrite (assignFold_replace st ctx _event l1 l2 _ _ Hna Hna').
  destruct (others_replace l1 l2 _ _ Hna Hna') as [-> ->].
  rewrite (resolveEach_replace _ _ _ (VObj o) (VObj o')); [done|].
  intros c0. rewrite !dispatch_choose by done.
  rewrite (prop_lookup _ _ _ Hconds). unfold o'. rewrite prop_insert_eq.
  assert (Hfind :
    match List.find (condMatches machine st c0 _event) (pre ++ VObj c :: post) with
    | Some condition => prop condition "actions"
    | None => VUndef
    end
    = match List.find (condMatches machine st c0 _event)
              (pre ++ VObj (delete "cond" c) :: post) with
      | Some condition => prop condition "actions"
      | None => VUndef
      end).
  { clear -Hm Hm'. induction pre as [|y pre IH]; simpl.
    - rewrite Hm, Hm'. unfold prop. by rewrite lookup_total_delete_ne.
    - by destruct (condMatches machine st c0 _event y). }
  unfold actions.findActions. by rewrite Hfind.
Qed.

Lemma condMatches_guarded machine st ctx _event c :
  truthy (guardOf machine c) = true →
  condMatches machine st ctx _event c
  = evaluateGuard machine (guardOf machine c) ctx _event st.
Proof. intros H. unfold actions.condMatches. fold (guardOf machine c). by rewrite H. Qed.

Lemma condMatches_unguarded machine st ctx _event c :
  truthy (guardOf machine c) = false → condMatches machine st ctx _event c = true.
Proof. intros H. unfold actions.condMatches. fold (guardOf machine c). by rewrite H. Qed.

(** C8: on a choose action the driver tries the branches in their declared
    order, evaluating the guard of each against the current [updatedContext],
    the event and the current state: a branch with a guard matches exactly
    when the guard evaluator says so for these.  A branch without a guard
    matches.  The first branch that matches, which is the one behind branches
    whose guards all evaluate to false and whose own guard is absent or
    evaluates to true, has its actions canonicalized and resolved by a nested
    call in the current context, whose result is what the choose action
    contributes; no other branch is resolved.  When the guards of all
    branches evaluate to false, the choose action contributes no action and
    leaves the context as it was. *)
Theorem choose_first_matching_branch (o : gmap string value) (conds : list value)
  (nested : value → list value → outcome contribution)
  (machine : Machine.StateNode) (st ctx _event : value) (fuel : nat) :
  kindOf (VObj o) = KChoose →
  o !! "conds" = Some (VArr conds) →
  (∀ c, prop c "cond" = VUndef → condMatches machine st ctx _event c = true)
  ∧ (∀ c, truthy (guardOf machine c) = true →
       condMatches machine st ctx _event c
       = evaluateGuard machine (guardOf machine c) ctx _event st)
  ∧ (∀ pre c post,
       conds = pre ++ c :: post →
       Forall (λ c', truthy (guardOf machine c') = true
                     ∧ evaluateGuard machine (guardOf machine c') ctx _event st = false) pre →
       truthy (guardOf machine c) = false
       ∨ evaluateGuard machine (guardOf machine c) ctx _event st = true →
       dispatch nested machine st _event (VObj o) ctx
       = (if truthy (prop c "actions") then
            acts ← toActionObjects (toArray (prop c "actions"))
                     (Some (Machine.actions (Machine.options machine)));
            nested ctx acts
          else Ok ([], ctx, []))
       ∧ resolveActions (S fuel) machine st ctx _event [VObj o]
         = (if truthy (prop c "actions") then
              acts ← toActionObjects (toArray (prop c "actions"))
                       (Some (Machine.actions (Machine.options machine)));
              resolveActions fuel machine st ctx _event acts
            else Ok ([], ctx, [])))
  ∧ (Forall (λ c, truthy (guardOf machine c) = true
                  ∧ evaluateGuard machine (guardOf machine c) ctx _event st = false) conds →
       dispatch nested machine st _event (VObj o) ctx = Ok ([], ctx, [])
       ∧ resolveActions (S fuel) machine st ctx _event [VObj o] = Ok ([], ctx, [])).
Proof.
  intros Hk Hconds.
  assert (Hna : hasType (actionTypes.assign T) (VObj o) = false).
  { apply kindOf_not_assign. by rewrite Hk. }
  assert (Hsingle : ∀ n, resolveActions (S n) machine st ctx _event [VObj o]
    = '(r, c, w) ← dispatch (λ c nest, resolveActions n machine st c _event nest)
                     machine st _event (VObj o) ctx;
      Ok (r, c, w)).
  { intros n. rewrite resolveActions_S. unfold actions.assignFold. simpl List.filter.
    rewrite Hna. simpl.
    destruct (dispatch _ machine st _event (VObj o) ctx) as [[[r c] w]| |]; simpl;
      [|done|done].
    by rewrite !app_nil_r. }
  assert (Hfalse : ∀ l,
    Forall (λ c', truthy (guardOf machine c') = true
                  ∧ evaluateGuard machine (guardOf machine c') ctx _event st = false) l →
    Forall (λ c', condMatches machine st ctx _event c' = false) l).
  { intros l Hl. eapply Forall_impl; [exact Hl|].
    intros c' [Hg He]. by rewrite condMatches_guarded. }
  split; [|split; [|split]].
  - intros c. apply condMatches_no_guard.
  - intros c. apply condMatches_guarded.
  - intros pre c post -> Hpre Hc.
    apply Hfalse in Hpre.
    assert (Hc' : condMatches machine st ctx _event c = true).
    { destruct Hc as [Hc|Hc]; [by apply condMatches_unguarded|].
      destruct (truthy (guardOf machine c)) eqn:Hg; [|by apply condMatches_unguarded].
      by rewrite condMatches_guarded. }
    assert (Hd : ∀ nest, dispatch nest machine st _event (VObj o) ctx
      = (if truthy (prop c "actions") then
            acts ← toActionObjects (toArray (prop c "actions"))
                     (Some (Machine.actions (Machine.options machine)));
            nest ctx acts
          else Ok ([], ctx, []))).
    { intros nest. rewrite (dispatch_choose_array _ _ _ _ _ _ _ Hk (prop_lookup _ _ _ Hconds)).
      rewrite (find_first _ _ _ _ Hpre Hc'). cbv zeta.
      by destruct (truthy (prop c "actions")). }
    split; [apply Hd|].
    rewrite Hsingle, Hd.
    destruct (truthy (prop c "actions")); [|done].
    destruct (toActionObjects _ _) as [acts| |]; simpl; [|done|done].
    by destruct (resolveActions fuel machine st ctx _event acts) as [[[r c1] w]| |].
  - intros Hnone. apply Hfalse in Hnone.
    assert (Hd : ∀ nest, dispatch nest machine st _event (VObj o) ctx = Ok ([], ctx, [])).
    { intros nest. rewrite (dispatch_choose_array _ _ _ _ _ _ _ Hk (prop_lookup _ _ _ Hconds)).
      by rewrite (find_nothing _ _ Hnone). }
    split; [apply Hd|]. by rewrite Hsingle, Hd.
Qed.

(** ** The driver refines the spliced reading of the list *)

Lemma resolveEach_Spliced n machine st _event l :
  ∀ c results c' w,
    resolveEach
      (dispatch (λ c0 nest, resolveActions n machine st c0 _event nest) machine st _event)
      (List.filter (λ a, negb (hasType (actionTypes.assign T) a)) l) c
    = Ok (results, c', w) →
    Spliced n machine st _event c l (concat results) c'.
Proof.
  induction l as [|a l IH]; intros c results c' w H.
  - simpl in H. injection H as <- <- <-. constructor.
  - simpl List.filter in H. destruct (hasType (actionTypes.assign T) a) eqn:Ha.
    { apply Spliced_assign; [by apply kindOf_assign|]. by eapply IH. }
    simpl in H.
    destruct (dispatch _ machine st _event a c) as [[[r c1] w1]| |] eqn:Hd;
      simpl in H; try discriminate.
    destruct (resolveEach _ _ c1) as [[[rs c2] w2]| |] eqn:Hr; simpl in H; try discriminate.
    injection H as <- <- <-. apply IH in Hr. simpl concat.
    destruct (kindOf a) eqn:Hk.
    + apply kindOf_assign in Hk. congruence.
    + rewrite dispatch_raise in Hd by done. injection Hd as <- <- <-.
      apply Spliced_counterpart; [by rewrite Hk| |done].
      unfold actions.counterpart. by rewrite Hk.
    + rewrite dispatch_send in Hd by done. injection Hd as <- <- <-.
      apply Spliced_counterpart; [by rewrite Hk| |done].
      unfold actions.counterpart. by rewrite Hk.
    + rewrite dispatch_log in Hd by done.
      destruct (resolveLog a c _event) as [resolved| |] eqn:Hl; simpl in Hd; try discriminate.
      injection Hd as <- <- <-.
      apply Spliced_counterpart; [by rewrite Hk| |done].
      unfold actions.counterpart. by rewrite Hk.
    + rewrite dispatch_choose in Hd by done.
      destruct (findActions _ _) as [branch| |] eqn:Hc; simpl in Hd; try discriminate.
      assert (Hsel : selectedBranch machine st c _event a = Ok branch).
      { unfold actions.selectedBranch. by rewrite Hk. }
      destruct (truthy branch) eqn:Htr; simpl in Hd.
      * destruct (toActionObjects _ _) as [acts| |] eqn:Ha'; simpl in Hd; try discriminate.
        eapply Spliced_branch; eauto. by rewrite Hk.
      * injection Hd as <- <- <-. eapply Spliced_nothing; eauto. by rewrite Hk.
    + rewrite dispatch_pure in Hd by done.
      destruct (call (prop a "get") _) as [branch| |] eqn:Hc; simpl in Hd; try discriminate.
      assert (Hsel : selectedBranch machine st c _event a = Ok branch).
      { unfold actions.selectedBranch. by rewrite Hk. }
      destruct (truthy branch) eqn:Htr; simpl in Hd.
      * destruct (toActionObjects _ _) as [acts| |] eqn:Ha'; simpl in Hd; try discriminate.
        eapply Spliced_branch; eauto. by rewrite Hk.
      * injection Hd as <- <- <-. eapply Spliced_nothing; eauto. by rewrite Hk.
    + rewrite dispatch_other in Hd by done.
      destruct (toActionObject a _) as [resolved| |] eqn:Hl; simpl in Hd; try discriminate.
      injection Hd as <- <- <-.
      apply Spliced_counterpart; [by rewrite Hk| |done].
      unfold actions.counterpart. by rewrite Hk.
Qed.

Lemma resolveActions_Spliced n machine st ctx _event acts out ctx' w :
  resolveActions (S n) machine st ctx _event acts = Ok (out, ctx', w) →
  Spliced n machine st _event (assignFold st ctx _event acts) acts out ctx'.
Proof.
  rewrite resolveActions_S. intros H.
  destruct (resolveEach _ _ _) as [[[results c] w0]| |] eqn:Hr; simpl in H; try discriminate.
  injection H as <- <- <-. by eapply resolveEach_Spliced.
Qed.

Lemma Spliced_app n machine st _event l1 :
  ∀ l2 c out c',
    Spliced n machine st _event c (l1 ++ l2) out c' →
    ∃ c1 out1 out2,
      Spliced n machine st _event c l1 out1 c1
      ∧ Spliced n machine st _event c1 l2 out2 c'
      ∧ out = out1 ++ out2.
Proof.
  induction l1 as [|a l1 IH]; intros l2 c out c' H.
  - exists c, [], out. split; [constructor|]. by split.
  - simpl in H.
    inversion H as
      [ | a' rest c0 o c0' Hk Hs
        | a' r rest c0 o c0' Hk Hc Hs
        | a' branch rest c0 o c0' Hk Hsel Htr Hs
        | a' branch acts bout ctx1 written rest c0 o c0' Hk Hsel Htr Hto Hres Hs ]; subst.
    + destruct (IH _ _ _ _ Hs) as (c1 & o1 & o2 & S1 & S2 & ->).
      exists c1, o1, o2. split; [by apply Spliced_assign|]. by split.
    + destruct (IH _ _ _ _ Hs) as (c1 & o1 & o2 & S1 & S2 & ->).
      exists c1, (r :: o1), o2. split; [by apply Spliced_counterpart|]. by split.
    + destruct (IH _ _ _ _ Hs) as (c1 & o1 & o2 & S1 & S2 & ->).
      exists c1, o1, o2. split; [by eapply Spliced_nothing|]. by split.
    + destruct (IH _ _ _ _ Hs) as (c2 & o1 & o2 & S1 & S2 & ->).
      exists c2, (bout ++ o1), o2. split; [by eapply Spliced_branch|].
      split; [done|]. by rewrite app_assoc.
Qed.

Lemma isSingle_not_branching k : isSingle k = true → isBranching k = false.
Proof. by destruct k. Qed.

Lemma Spliced_Threaded n machine st _event c l out c' :
  Spliced n machine st _event c l out c' → Threaded n machine st _event c l c'.
Proof.
  induction 1 as [ | a rest c out c' Hk _ IH | a r rest c out c' Hk Hc _ IH
                   | a branch rest c out c' Hk Hsel Htr _ IH
                   | a branch acts bout c1 written rest c out c' Hk Hsel Htr Hto Hres _ IH ].
  - constructor.
  - apply Threaded_keep; [by rewrite Hk|done].
  - apply Threaded_keep; [by apply isSingle_not_branching|done].
  - by eapply Threaded_nothing.
  - by eapply Threaded_replace.
Qed.

(** The relation [Threaded] leaves no choice: the list and the context it
    starts in determine the context at the end. *)
Lemma Threaded_functional n machine st _event c l c1 :
  Threaded n machine st _event c l c1 →
  ∀ c2, Threaded n machine st _event c l c2 → c2 = c1.
Proof.
  induction 1 as [ c | a rest c c' Hk _ IH
                   | a branch rest c c' Hk Hsel Htr _ IH
                   | a branch acts bout ctx1 written rest c c' Hk Hsel Htr Hto Hres _ IH ];
    intros c2 H2.
  - by inversion H2.
  - inversion H2 as [ | ? ? ? ? Hk2 H2' | ? ? ? ? ? Hk2 _ _ _ | ? ? ? ? ? ? ? ? ? Hk2 _ _ _ _ _ ];
      subst; [by apply IH|congruence|congruence].
  - inversion H2 as [ | ? ? ? ? Hk2 _ | ? ? ? ? ? _ _ _ H2'
                      | ? branch2 ? ? ? ? ? ? ? _ Hsel2 Htr2 _ _ _ ];
      subst; [congruence|by apply IH|].
    rewrite Hsel in Hsel2. injection Hsel2 as <-. congruence.
  - inversion H2 as [ | ? ? ? ? Hk2 _ | ? branch2 ? ? ? _ Hsel2 Htr2 _
                      | ? branch2 acts2 bout2 ctx2 written2 ? ? ? _ Hsel2 _ Hto2 Hres2 H2' ];
      subst; [congruence| |].
    + rewrite Hsel in Hsel2. injection Hsel2 as <-. congruence.
    + rewrite Hsel in Hsel2. injection Hsel2 as <-.
      rewrite Hto in Hto2. injection Hto2 as <-.
      rewrite Hres in Hres2. injection Hres2 as <- <- <-. by apply IH.
Qed.

Lemma Threaded_no_branching n machine st _event c l c' :
  Threaded n machine st _event c l c' →
  Forall (λ a, isBranching (kindOf a) = false) l → c' = c.
Proof.
  induction 1 as [ c | a rest c c' Hk _ IH
                   | a branch rest c c' Hk Hsel Htr _ IH
                   | a branch acts bout ctx1 written rest c c' Hk Hsel Htr Hto Hres _ IH ];
    intros HF.
  - done.
  - apply IH. by inversion HF.
  - apply IH. by inversion HF.
  - inversion HF; subst. congruence.
Qed.

Lemma Spliced_single n machine st _event c l out c' :
  Spliced n machine st _event c l out c' →
  Forall (λ a, isSingle (kindOf a) = true) l →
  Forall2 (λ a r, counterpart machine c _event a = Ok r) l out ∧ c' = c.
Proof.
  induction 1 as [ | a rest c out c' Hk _ IH | a r rest c out c' Hk Hc _ IH
                   | a branch rest c out c' Hk _ _ _ IH
                   | a branch acts bout c1 written rest c out c' Hk _ _ _ _ _ IH ];
    intros HF.
  - by split.
  - inversion HF as [|? ? Ha _]; subst. by rewrite Hk in Ha.
  - inversion HF as [|? ? _ HF']; subst. destruct (IH HF') as [IH1 ->].
    split; [|done]. by constructor.
  - inversion HF as [|? ? Ha _]; subst. by destruct (kindOf a).
  - inversion HF as [|? ? Ha _]; subst. by destruct (kindOf a).
Qed.

Lemma assignFold_no_assign st ctx _event l :
  Forall (λ a, kindOf a ≠ KAssign) l → assignFold st ctx _event l = ctx.
Proof.
  intros HF. unfold actions.assignFold.
  replace (List.filter (hasType (actionTypes.assign T)) l) with (@nil value); [done|].
  induction HF as [|a l Ha _ IH]; [done|]. simpl.
  apply kindOf_not_assign in Ha. by rewrite Ha.
Qed.

Lemma filter_assigns_front (l : list value) :
  List.filter (hasType (actionTypes.assign T))
    (List.filter (hasType (actionTypes.assign T)) l
     ++ List.filter (λ a, negb (hasType (actionTypes.assign T) a)) l)
  = List.filter (hasType (actionTypes.assign T)) l
  ∧ List.filter (λ a, negb (hasType (actionTypes.assign T) a))
      (List.filter (hasType (actionTypes.assign T)) l
       ++ List.filter (λ a, negb (hasType (actionTypes.assign T) a)) l)
    = List.filter (λ a, negb (hasType (actionTypes.assign T) a)) l.
Proof.
  rewrite !List.filter_app.
  assert (H1 : ∀ l0 : list value,
    List.filter (hasType (actionTypes.assign T))
      (List.filter (hasType (actionTypes.assign T)) l0)
    = List.filter (hasType (actionTypes.assign T)) l0).
  { induction l0 as [|a l0 IH]; [done|]. simpl.
    destruct (hasType _ a) eqn:Ha; simpl; [|done]. by rewrite Ha, IH. }
  assert (H2 : ∀ l0 : list value,
    List.filter (hasType (actionTypes.assign T))
      (List.filter (λ a, negb (hasType (actionTypes.assign T) a)) l0) = []).
  { induction l0 as [|a l0 IH]; [done|]. simpl.
    destruct (hasType _ a) eqn:Ha; simpl; [done|]. by rewrite Ha. }
  assert (H3 : ∀ l0 : list value,
    List.filter (λ a, negb (hasType (actionTypes.assign T) a))
      (List.filter (hasType (actionTypes.assign T)) l0) = []).
  { induction l0 as [|a l0 IH]; [done|]. simpl.
    destruct (hasType _ a) eqn:Ha; simpl; [|done]. by rewrite Ha. }
  assert (H4 : ∀ l0 : list value,
    List.filter (λ a, negb (hasType (actionTypes.assign T) a))
      (List.filter (λ a, negb (hasType (actionTypes.assign T) a)) l0)
    = List.filter (λ a, negb (hasType (actionTypes.assign T) a)) l0).
  { induction l0 as [|a l0 IH]; [done|]. simpl.
    destruct (hasType _ a) eqn:Ha; simpl; [done|]. by rewrite Ha, IH. }
  by rewrite H1, H2, H3, H4, app_nil_r.
Qed.

(** C4 (as amended): the resolved output keeps the order of the input.  It is
    the input list with every assign entry removed, every choose or pure entry
    replaced in place by the resolved output of the branch it selects, and
    every other entry replaced in place by its resolved counterpart; a list
    made only of such other entries is resolved entry by entry. *)
Theorem order_preserved_with_splicing (n : nat) (machine : Machine.StateNode)
  (st ctx _event : value) (acts out : list value) (ctx' : value) (w : list string) :
  resolveActions (S n) machine st ctx _event acts = Ok (out, ctx', w) →
  Spliced n machine st _event (assignFold st ctx _event acts) acts out ctx'
  ∧ (Forall (λ a, isSingle (kindOf a) = true) acts →
     Forall2 (λ a r, counterpart machine ctx _event a = Ok r) acts out).
Proof.
  intros H. apply resolveActions_Spliced in H. split; [done|].
  intros HF.
  rewrite assignFold_no_assign in H.
  - by apply (Spliced_single _ _ _ _ _ _ _ _ H).
  - eapply Forall_impl; [exact HF|]. intros a Ha Hk. cbv beta in Ha. by rewrite Hk in Ha.
Qed.

(** C2 (as amended): during a call the context is first set to the merged
    effect of the top-level assign actions (the input context when there are
    none).  After that it is replaced at every choose or pure entry that
    selects a branch, by the context the nested call for that branch returns,
    and nowhere else; the value after the last entry is the one returned, and
    no other value satisfies this description.  For a list without choose and
    pure entries the returned context is therefore the merged effect of the
    top-level assigns. *)
Theorem context_after_assigns_and_branches (n : nat) (machine : Machine.StateNode)
  (st ctx _event : value) (acts out : list value) (ctx' : value) (w : list string) :
  resolveActions (S n) machine st ctx _event acts = Ok (out, ctx', w) →
  Threaded n machine st _event (assignFold st ctx _event acts) acts ctx'
  ∧ (∀ c, Threaded n machine st _event (assignFold st ctx _event acts) acts c → c = ctx')
  ∧ (Forall (λ a, isBranching (kindOf a) = false) acts →
     ctx' = assignFold st ctx _event acts).
Proof.
  intros H. apply resolveActions_Spliced, Spliced_Threaded in H.
  split; [done|]. split.
  - by apply Threaded_functional.
  - intros HF. by eapply Threaded_no_branching.
Qed.

(** C1 (as amended): the position of the assign actions in a list does not
    matter: the list resolves as it does with its assigns moved to the front.
    A non-assign action is resolved against the context in effect when it is
    reached.  That context is the merged effect of all top-level assigns of
    the list (the input context when there are none), replaced, for each
    choose or pure entry before the action that selects a branch, by the
    context the nested call for that branch returns; it is determined by the
    entries before the action, and with no choose or pure entry among them it
    is exactly the merged effect of the assigns. *)
Theorem siblings_resolved_after_assigns (n : nat) (machine : Machine.StateNode)
  (st ctx _event : value) :
  (∀ acts,
     resolveActions n machine st ctx _event acts
     = resolveActions n machine st ctx _event
         (List.filter (hasType (actionTypes.assign T)) acts
          ++ List.filter (λ a, negb (hasType (actionTypes.assign T) a)) acts))
  ∧ (∀ l1 a l2 out ctx' w,
       kindOf a ≠ KAssign →
       resolveActions (S n) machine st ctx _event (l1 ++ a :: l2) = Ok (out, ctx', w) →
       ∃ ctx_a out1 out_a out2,
         out = out1 ++ out_a ++ out2
         ∧ Threaded n machine st _event (assignFold st ctx _event (l1 ++ a :: l2)) l1 ctx_a
         ∧ (∀ c, Threaded n machine st _event
                   (assignFold st ctx _event (l1 ++ a :: l2)) l1 c → c = ctx_a)
         ∧ (Forall (λ b, isBranching (kindOf b) = false) l1 →
            ctx_a = assignFold st ctx _event (l1 ++ a :: l2))
         ∧ (isSingle (kindOf a) = true →
            ∃ r, counterpart machine ctx_a _event a = Ok r ∧ out_a = [r])
         ∧ (isBranching (kindOf a) = true →
            ∃ branch,
              selectedBranch machine st ctx_a _event a = Ok branch
              ∧ (truthy branch = false → out_a = [])
              ∧ (truthy branch = true →
                 ∃ nested c1 w1,
                   toActionObjects (toArray branch)
                     (Some (Machine.actions (Machine.options machine))) = Ok nested
                   ∧ resolveActions n machine st ctx_a _event nested
                     = Ok (out_a, c1, w1)))).
Proof.
  split.
  - intros acts. destruct n as [|n']; [done|].
    rewrite !resolveActions_S. unfold actions.assignFold.
    by destruct (filter_assigns_front acts) as [-> ->].
  - intros l1 a l2 out ctx' w Hk H.
    apply resolveActions_Spliced in H.
    destruct (Spliced_app _ _ _ _ _ _ _ _ _ H) as (c_a & out1 & out_r & S1 & S2 & ->).
    assert (HT := Spliced_Threaded _ _ _ _ _ _ _ _ S1).
    assert (Hnb := Threaded_no_branching _ _ _ _ _ _ _ HT).
    assert (Hfun := Threaded_functional _ _ _ _ _ _ _ HT).
    remember (a :: l2) as l eqn:El.
    destruct S2 as
      [ c0
      | a' rest c0 o c0' Hk' Hs
      | a' r rest c0 o c0' Hk' Hc Hs
      | a' branch rest c0 o c0' Hk' Hsel Htr Hs
      | a' branch acts bout ctx1 written rest c0 o c0' Hk' Hsel Htr Hto Hres Hs ];
      [discriminate El|injection El as -> ->..].
    + done.
    + exists c0, out1, [r], o. repeat split; try done.
      * eauto.
      * intros Hb. by destruct (kindOf a).
    + exists c0, out1, [], o. repeat split; try done.
      * intros Hb. by destruct (kindOf a).
      * intros _. exists branch. repeat split; try done. congruence.
    + exists c0, out1, bout, o. repeat split; try done.
      * intros Hb. by destruct (kindOf a).
      * intros _. exists branch. repeat split; try done; [congruence|].
        intros _. eauto.
Qed.

(** ** Assign actions are consumed *)

Lemma hasType_isObject t v : hasType t v = true → isObject v = true.
Proof.
  unfold hasType. intros H.
  destruct v as [| | | |name ? ?|o|o| |]; simpl in H; try discriminate; done.
Qed.

Lemma hasType_spread t v : isObject v = true → hasType t (VObj (spread v)) = hasType t v.
Proof. by destruct v. Qed.

Lemma hasType_delete_ne t k (o : gmap string value) :
  k ≠ "type" → hasType t (VObj (delete k o)) = hasType t (VObj o).
Proof. intros. unfold hasType, prop. by rewrite lookup_total_delete_ne. Qed.

Lemma toActionObject_not_named a actionMap r :
  toActionObject a actionMap = Ok r → isNamed r = false.
Proof.
  unfold actions.toActionObject, actions.defineToString.
  destruct a as [| | |s|name src code|o|o| |]; try discriminate.
  - destruct (negb (truthy (lookupIn actionMap s))); [by intros [= <-]|].
    destruct (isFunction (lookupIn actionMap s)) eqn:Hf; [by intros [= <-]|].
    destruct (lookupIn actionMap s); try discriminate; by intros [= <-].
  - by intros [= <-].
  - destruct (isFunction _); [by intros [= <-]|].
    destruct (truthy _); by intros [= <-].
  - destruct (isFunction _); [by intros [= <-]|].
    destruct (truthy _); [by intros [= <-]|discriminate].
Qed.

Lemma mapM_Forall {A B} (f : A → outcome B) (P : B → Prop) l :
  (∀ x y, f x = Ok y → P y) → ∀ ys, mapM f l = Ok ys → Forall P ys.
Proof.
  intros Hf. induction l as [|x l IH]; simpl; intros ys H.
  - injection H as <-. constructor.
  - destruct (f x) as [y| |] eqn:Hx; simpl in H; try discriminate.
    destruct (mapM f l) as [ys'| |]; simpl in H; try discriminate.
    injection H as <-. constructor; eauto.
Qed.

Lemma toActionObjects_not_named v actionMap acts :
  toActionObjects v actionMap = Ok acts → Forall (λ a, isNamed a = false) acts.
Proof.
  unfold actions.toActionObjects. destruct (negb (truthy v)).
  - intros [= <-]. constructor.
  - apply mapM_Forall. intros x y. apply toActionObject_not_named.
Qed.

Lemma toActionObject_other_assign machine a r :
  isNamed a = false → kindOf a = KOther →
  toActionObject a (Some (Machine.actions (Machine.options machine))) = Ok r →
  hasType (actionTypes.assign T) r = true →
  fromRegistry machine r.
Proof.
  intros Hn Hk Hto Hr.
  assert (Ha : hasType (actionTypes.assign T) a = false).
  { apply kindOf_not_assign. by rewrite Hk. }
  exists a, (lookupIn (Some (Machine.actions (Machine.options machine)))
               (toKey (prop a "type"))).
  split; [done|]. split; [done|]. split; [|done].
  revert Hto Hr. unfold actions.toActionObject, actions.defineToString.
  destruct a as [| | |s|name src code|o|o| |]; try discriminate.
  - unfold prop at 2.
    destruct (isFunction (lookupIn _ _)) eqn:Hf.
    + intros [= <-]. rewrite hasType_delete_ne, hasType_insert_ne by done. congruence.
    + destruct (truthy (lookupIn _ _)) eqn:Htr; intros [= <-].
      * rewrite hasType_delete_ne by done. unfold hasType. by rewrite prop_insert_eq.
      * rewrite hasType_delete_ne by done. congruence.
  - unfold prop at 2.
    destruct (isFunction (lookupIn _ _)) eqn:Hf.
    + intros [= <-]. rewrite hasType_delete_ne, hasType_insert_ne by done.
      change (hasType (actionTypes.assign T) (VObj o))
        with (hasType (actionTypes.assign T) (VLocked o)). congruence.
    + destruct (truthy (lookupIn _ _)) eqn:Htr; [|discriminate]. intros [= <-].
      rewrite hasType_delete_ne by done. unfold hasType. by rewrite prop_insert_eq.
Qed.

Lemma counterpart_assign machine c _event a r :
  isNamed a = false → isSingle (kindOf a) = true →
  counterpart machine c _event a = Ok r →
  hasType (actionTypes.assign T) r = true →
  fromRegistry machine r.
Proof.
  intros Hn Hs. unfold actions.counterpart.
  destruct (kindOf a) eqn:Hk; try discriminate.
  - intros [= <-]. kind_inv Hk.
    unfold hasType at 1. unfold actions.resolveRaise. rewrite prop_insert_eq.
    unfold hasType in Ety, Ety0. destruct (prop a "type") as [| | |s| | | | |]; try discriminate.
    apply String.eqb_eq in Ety0 as ->. congruence.
  - intros [= <-]. kind_inv Hk.
    unfold actions.resolveSend. rewrite !hasType_insert_ne by done.
    rewrite hasType_spread by (by eapply hasType_isObject). congruence.
  - kind_inv Hk.
    unfold actions.resolveLog.
    destruct (if isString _ then _ else _) as [v| |]; simpl; try discriminate.
    intros [= <-]. rewrite hasType_insert_ne by done.
    rewrite hasType_spread by (by eapply hasType_isObject). congruence.
  - by apply toActionObject_other_assign.
Qed.

Lemma Spliced_assign_origin n machine st _event c l out c' :
  (∀ c0 acts bout c1 w,
     Forall (λ a, isNamed a = false) acts →
     resolveActions n machine st c0 _event acts = Ok (bout, c1, w) →
     Forall (λ r, hasType (actionTypes.assign T) r = true → fromRegistry machine r) bout) →
  Spliced n machine st _event c l out c' →
  Forall (λ a, isNamed a = false) l →
  Forall (λ r, hasType (actionTypes.assign T) r = true → fromRegistry machine r) out.
Proof.
  intros Hnested.
  induction 1 as [ | a rest c out c' Hk _ IH | a r rest c out c' Hk Hc _ IH
                   | a branch rest c out c' Hk _ _ _ IH
                   | a branch acts bout c1 written rest c out c' Hk _ _ Hto Hres _ IH ];
    intros HF.
  - constructor.
  - apply IH. by inversion HF.
  - inversion HF as [|? ? Ha HF']; subst. constructor; [|by apply IH].
    by eapply counterpart_assign.
  - apply IH. by inversion HF.
  - inversion HF as [|? ? Ha HF']; subst. apply Forall_app. split; [|by apply IH].
    eapply Hnested; [|exact Hres]. by eapply toActionObjects_not_named.
Qed.

Lemma resolveActions_assign_origin fuel machine st :
  ∀ ctx _event acts out ctx' w,
    Forall (λ a, isNamed a = false) acts →
    resolveActions fuel machine st ctx _event acts = Ok (out, ctx', w) →
    Forall (λ r, hasType (actionTypes.assign T) r = true → fromRegistry machine r) out.
Proof.
  induction fuel as [|n IH]; intros ctx _event acts out ctx' w HF H.
  - discriminate.
  - apply resolveActions_Spliced in H.
    eapply Spliced_assign_origin; [|exact H|exact HF].
    intros c0 nested bout c1 w1 HF' H'. by eapply IH.
Qed.

(** The driver consumes the assign actions the way [Consumed] says. *)

Lemma Spliced_Carried n machine st _event c l out c' :
  (∀ c0 acts bout c1 w,
     resolveActions n machine st c0 _event acts = Ok (bout, c1, w) →
     Consumed machine st _event c0 acts c1) →
  Spliced n machine st _event c l out c' → Carried machine st _event c l c'.
Proof.
  intros Hnested.
  induction 1 as [ | a rest c out c' Hk _ IH | a r rest c out c' Hk Hc _ IH
                   | a branch rest c out c' Hk Hsel Htr _ IH
                   | a branch acts bout c1 written rest c out c' Hk Hsel Htr Hto Hres _ IH ].
  - constructor.
  - apply Carried_keep; [by rewrite Hk|done].
  - apply Carried_keep; [by apply isSingle_not_branching|done].
  - by eapply Carried_nothing.
  - eapply Carried_branch; eauto.
Qed.

Lemma resolveActions_Consumed fuel machine st _event :
  ∀ ctx acts out ctx' w,
    resolveActions fuel machine st ctx _event acts = Ok (out, ctx', w) →
    Consumed machine st _event ctx acts ctx'.
Proof.
  induction fuel as [|n IH]; intros ctx acts out ctx' w H; [discriminate|].
  apply resolveActions_Spliced in H. constructor.
  eapply Spliced_Carried; [|exact H].
  intros c0 nested bout c1 w1 H'. by eapply IH.
Qed.

Scheme Consumed_mut := Minimality for actions.Consumed Sort Prop
  with Carried_mut := Minimality for actions.Carried Sort Prop.

(** [Consumed] leaves no choice either: the list and the context determine
    the context that results. *)
Lemma Consumed_functional machine st _event ctx acts c1 :
  Consumed machine st _event ctx acts c1 →
  ∀ c2, Consumed machine st _event ctx acts c2 → c2 = c1.
Proof.
  revert ctx acts c1.
  apply (Consumed_mut objectPrototype native stringOf toArray updateContext evaluateGuard
           customFind T machine st _event
           (λ c l c1, ∀ c2, Consumed machine st _event c l c2 → c2 = c1)
           (λ c l c1, ∀ c2, Carried machine st _event c l c2 → c2 = c1)).
  - intros c l c1 _ IH d Hd. inversion Hd; subst. by apply IH.
  - intros c d Hd. by inversion Hd.
  - intros a rest c c1 Hk _ IH d Hd.
    inversion Hd as [ | ? ? ? ? Hk2 Hd' | ? ? ? ? ? Hk2 _ _ _ | ? ? ? ? ? ? ? Hk2 _ _ _ _ _ ];
      subst; [by apply IH|congruence|congruence].
  - intros a branch rest c c1 Hk Hsel Htr _ IH d Hd.
    inversion Hd as [ | ? ? ? ? Hk2 _ | ? ? ? ? ? _ _ _ Hd'
                      | ? branch2 ? ? ? ? ? _ Hsel2 Htr2 _ _ _ ];
      subst; [congruence|by apply IH|].
    rewrite Hsel in Hsel2. injection Hsel2 as <-. congruence.
  - intros a branch nested ctx1 rest c c1 Hk Hsel Htr Hto _ IHnested _ IH d Hd.
    inversion Hd as [ | ? ? ? ? Hk2 _ | ? branch2 ? ? ? _ Hsel2 Htr2 _
                      | ? branch2 nested2 ctx2 ? ? ? _ Hsel2 _ Hto2 Hcons2 Hd' ];
      subst; [congruence| |].
    + rewrite Hsel in Hsel2. injection Hsel2 as <-. congruence.
    + rewrite Hsel in Hsel2. injection Hsel2 as <-.
      rewrite Hto in Hto2. injection Hto2 as <-.
      apply IHnested in Hcons2 as ->. by apply IH.
Qed.

(** C10 (as amended): the assign actions of the list, and those of every
    branch selected at any depth, are consumed into the returned context: the
    returned context is the one that results from handing the top-level
    assign actions to the context updater and then doing the same, in turn,
    for the actions of every branch a choose or pure entry selects, and it is
    the only such context.  An action of the assign type occurs in the
    resolved sequence only as the canonical form of an action of another type
    for which the action registry gives an object of the assign type; when the
    registry gives no such object under any name, no action of the resolved
    sequence has the assign type. *)
Theorem assigns_never_in_output (fuel : nat) (machine : Machine.StateNode)
  (st ctx _event : value) (acts out : list value) (ctx' : value) (w : list string) :
  Forall (λ a, isObject a = true) acts →
  resolveActions fuel machine st ctx _event acts = Ok (out, ctx', w) →
  Consumed machine st _event ctx acts ctx'
  ∧ (∀ c, Consumed machine st _event ctx acts c → c = ctx')
  ∧ Forall (λ r, hasType (actionTypes.assign T) r = true →
               ∃ a entry,
                 kindOf a = KOther
                 ∧ lookupIn (Some (Machine.actions (Machine.options machine)))
                     (toKey (prop a "type")) = entry
                 ∧ hasType (actionTypes.assign T) entry = true
                 ∧ toActionObject a (Some (Machine.actions (Machine.options machine)))
                   = Ok r) out
  ∧ ((∀ name, hasType (actionTypes.assign T)
                (lookupIn (Some (Machine.actions (Machine.options machine))) name)
              = false) →
     Forall (λ r, hasType (actionTypes.assign T) r = false) out).
Proof.
  intros HF H.
  assert (Hcons := resolveActions_Consumed _ _ _ _ _ _ _ _ _ H).
  assert (Horigin :
    Forall (λ r, hasType (actionTypes.assign T) r = true → fromRegistry machine r) out).
  { eapply resolveActions_assign_origin; [|exact H].
    eapply Forall_impl; [exact HF|]. intros a Ha. by destruct a. }
  split; [exact Hcons|]. split; [by apply Consumed_functional|].
  split; [exact Horigin|].
  intros Hreg. eapply Forall_impl; [exact Horigin|].
  intros r Hr. destruct (hasType (actionTypes.assign T) r) eqn:E; [|done].
  destruct (Hr E) as (a & entry & _ & He & Hty & _).
  rewrite <- He, Hreg in Hty. discriminate.
Qed.

(** ** Objects that exist before a call *)














#[local] Abbreviation refs_dispatch :=
  (Refs.dispatch objectPrototype native stringOf toSCXMLEvent toArray evaluateGuard
     customFind IS_PRODUCTION T).
#[local] Abbreviation refs_resolveActions :=
  (Refs.resolveActions objectPrototype native stringOf toSCXMLEvent toArray updateContext
     evaluateGuard customFind IS_PRODUCTION T).








End Properties.

(** * The properties on the concrete machine *)

(** ** The examples of the specification *)

(** [[assign({count: ctx => ctx.count + 1}), send('PING', {delay: 'LONG'})]]
    against [{count: 1}] with delays [{LONG: 1000}]: the final context is
    [{count: 2}], and there is one resolved send action, with event type
    'PING' and delay 1000. *)
Example assign_then_send :
  ∃ r w,
    Demo.resolve false Demo.machine 1 (Demo.ctx 1) [Demo.increment; VObj Demo.pingLong]
    = Ok ([r], Demo.ctx 2, w)
    ∧ hasType (actionTypes.send Demo.T) r = true
    ∧ prop (prop r "event") "type" = VStr "PING"
    ∧ prop r "delay" = VNum 1000.
Proof. eexists _, _. repeat split. Qed.

(** [[choose([{cond: 'isEven', actions: [log('even')]}, {actions: [log('odd')]}])]]
    against [{count: 2}]: exactly one resolved log action, with value 'even'. *)
Example choose_even :
  ∃ r w,
    Demo.resolve false Demo.machine 2 (Demo.ctx 2) [VObj Demo.evenOrOdd]
    = Ok ([r], Demo.ctx 2, w)
    ∧ hasType (actionTypes.log Demo.T) r = true
    ∧ prop r "value" = VStr "even".
Proof. eexists _, _. repeat split. Qed.

(** The same branches kept in an object with a [find] of its own. *)
Example choose_from_bag :
  ∃ r w,
    Demo.resolve false Demo.machine 2 (Demo.ctx 3) [DemoMore.chooseFromBag]
    = Ok ([r], Demo.ctx 3, w)
    ∧ prop r "value" = VStr "odd".
Proof. eexists _, _. repeat split. Qed.

(** ** Inputs on which the claims as first stated fail *)

(** C1 as stated fails.  The list [pure(...), log(ctx => ctx.count)] has no
    top-level assign, so the claim has the log resolved against the input
    context, where count is 1; the driver resolves it after the pure action's
    branch has assigned, and logs 2. *)
Lemma siblings_see_branch_assigns :
  assignFold Demo.updateContext Demo.T VUndef (Demo.ctx 1) Demo.event Demo.branchThenLog
  = Demo.ctx 1
  ∧ (∃ r0, resolveLog Demo.native Demo.logCount (Demo.ctx 1) Demo.event = Ok r0
           ∧ prop r0 "value" = VNum 1)
  ∧ (∃ r ctx' w,
       Demo.resolve false Demo.machine 2 (Demo.ctx 1) Demo.branchThenLog = Ok ([r], ctx', w)
       ∧ prop r "value" = VNum 2).
Proof.
  split; [reflexivity|]. split.
  - eexists. split; reflexivity.
  - eexists _, _, _. split; reflexivity.
Qed.

(** C2 as stated fails.  The list [pure(...)] has no top-level assign, so the
    merged effect of its top-level assigns is the input context, count 1; the
    context returned has count 2, set by the nested call for the branch. *)
Lemma context_replaced_by_branch :
  assignFold Demo.updateContext Demo.T VUndef (Demo.ctx 1) Demo.event Demo.branchOnly
  = Demo.ctx 1
  ∧ Demo.resolve false Demo.machine 2 (Demo.ctx 1) Demo.branchOnly = Ok ([], Demo.ctx 2, [])
  ∧ Demo.ctx 2 ≠ Demo.ctx 1.
Proof.
  split; [reflexivity|]. split; [reflexivity|].
  intros H. apply (f_equal Demo.count) in H. discriminate H.
Qed.

(** C4 as stated fails.  In [assign(...), log(ctx => ctx.count)] no entry is a
    choose or pure action, so the claim maps each of the two entries in place
    to a resolved counterpart; the output has one action. *)
Lemma assign_entry_has_no_counterpart :
  Forall (λ a, isBranching (kindOf Demo.T a) = false) Demo.assignThenLog
  ∧ ∃ out ctx' w,
      Demo.resolve false Demo.machine 1 (Demo.ctx 1) Demo.assignThenLog = Ok (out, ctx', w)
      ∧ length out ≠ length Demo.assignThenLog.
Proof.
  split.
  - repeat constructor.
  - eexists _, _, _. split; [reflexivity|]. simpl. lia.
Qed.

(** C10 as stated fails.  The custom action [{type: 'inc'}] is not an assign
    action; the registry maps 'inc' to an assign action object, and the
    canonicalized action in the output has the assign type, while the context
    is the input context. *)
Lemma registered_assign_reaches_output :
  hasType (actionTypes.assign Demo.T) (VObj Demo.inc) = false
  ∧ ∃ r ctx' w,
      Demo.resolve false Demo.machineInc 1 (Demo.ctx 1) [VObj Demo.inc] = Ok ([r], ctx', w)
      ∧ hasType (actionTypes.assign Demo.T) r = true
      ∧ ctx' = Demo.ctx 1.
Proof.
  split; [reflexivity|]. eexists _, _, _. split; [reflexivity|]. split; reflexivity.
Qed.


(** C5 as stated fails.  The action registry [{}] has no entry for the type
    of [{type: 'toString'}], so the claim passes the action through
    unchanged; the lookup finds the method every plain object inherits, and
    the result carries it as [exec]. *)
Lemma inherited_member_is_an_entry :
  Demo.stringify !! "type" = Some (VStr "toString")
  ∧ (∅ : gmap string value) !! "toString" = None
  ∧ toActionObject Demo.objectPrototype Demo.stringOf (VObj Demo.stringify) (Some ∅)
    = Ok (VObj (<["exec" := VFun "toString" "function toString() { [native code] }"
                              (Native 6)]> Demo.stringify))
  ∧ toActionObject Demo.objectPrototype Demo.stringOf (VObj Demo.stringify) (Some ∅)
    ≠ Ok (VObj Demo.stringify).
Proof.
  split; [reflexivity|]. split; [reflexivity|]. split; [reflexivity|].
  change (Ok (VObj (<["exec" := VFun "toString" "function toString() { [native code] }"
                                  (Native 6)]> Demo.stringify))
          ≠ Ok (VObj Demo.stringify)).
  intros H.
  apply (f_equal (λ r, match r with Ok (VObj m) => m !! "exec" | _ => None end)) in H.
  discriminate H.
Qed.

(** C6 as stated fails.  The delay registry [{LONG: 1000}] has no entry named
    'toString', so the claim resolves the delay of
    [send('PING', {delay: 'toString'})] to undefined; the lookup finds the
    inherited method, which is called, and the resolved delay is the string it
    returns. *)
Lemma inherited_member_is_a_delay :
  Demo.pingToString !! "delay" = Some (VStr "toString")
  ∧ Machine.delays (Machine.options Demo.machine) !! "toString" = None
  ∧ prop (resolveSend Demo.objectPrototype Demo.native Demo.toSCXMLEvent
            (VObj Demo.pingToString) (Demo.ctx 1) Demo.event
            (Some (Machine.delays (Machine.options Demo.machine)))) "delay"
    = VStr "[object Undefined]"
  ∧ VStr "[object Undefined]" ≠ VUndef.
Proof. repeat split; discriminate. Qed.

(** ** The properties at work *)



Lemma choose_unregistered_guard_witness :
  kindOf Demo.T (VObj Demo.typoChoose) = KChoose
  ∧ Demo.typoBranch !! "cond" = Some (VStr "isEvne")
  ∧ Machine.guards (Machine.options Demo.machine) !! "isEvne" = None
  ∧ Demo.resolve false Demo.machine 2 (Demo.ctx 3) [VObj Demo.typoChoose]
    = Demo.resolve false Demo.machine 2 (Demo.ctx 3)
        [VObj (<["conds" := VArr [VObj (delete "cond" Demo.typoBranch); Demo.oddBranch]]>
                 Demo.typoChoose)].
Proof.
  do 3 (split; [reflexivity|]).
  destruct (choose_unregistered_guard Demo.objectPrototype Demo.native Demo.stringOf
              Demo.toSCXMLEvent Demo.toArray Demo.updateContext Demo.evaluateGuard
              Demo.customFind false Demo.T
              Demo.typoChoose Demo.typoBranch [] [Demo.oddBranch] [] [] "isEvne"
              Demo.machine VUndef (Demo.ctx 3) Demo.event 2
              eq_refl eq_refl eq_refl eq_refl) as [_ H].
  exact H.
Defined.

Lemma choose_first_matching_branch_witness :
  kindOf Demo.T (VObj Demo.evenOrOdd) = KChoose
  ∧ Demo.evaluateGuard Demo.machine (guardOf Demo.machine Demo.evenBranch) (Demo.ctx 3)
      Demo.event VUndef = false
  ∧ Demo.resolve false Demo.machine 2 (Demo.ctx 3) [VObj Demo.evenOrOdd]
    = (acts ← toActionObjects Demo.objectPrototype Demo.stringOf
                (Demo.toArray (prop Demo.oddBranch "actions"))
                (Some (Machine.actions (Machine.options Demo.machine)));
       Demo.resolve false Demo.machine 1 (Demo.ctx 3) acts)
  ∧ Demo.evaluateGuard Demo.machine (guardOf Demo.machine Demo.evenBranch) (Demo.ctx 2)
      Demo.event VUndef = true
  ∧ Demo.resolve false Demo.machine 2 (Demo.ctx 2) [VObj Demo.evenOrOdd]
    = (acts ← toActionObjects Demo.objectPrototype Demo.stringOf
                (Demo.toArray (prop Demo.evenBranch "actions"))
                (Some (Machine.actions (Machine.options Demo.machine)));
       Demo.resolve false Demo.machine 1 (Demo.ctx 2) acts)
  ∧ Demo.resolve false Demo.machine 2 (Demo.ctx 3) [VObj Demo.evenOnly]
    = Ok ([], Demo.ctx 3, []).
Proof.
  split; [reflexivity|]. split; [reflexivity|]. split; [|split; [reflexivity|split]].
  - destruct (choose_first_matching_branch Demo.objectPrototype Demo.native Demo.stringOf
                Demo.toSCXMLEvent Demo.toArray Demo.updateContext Demo.evaluateGuard
                Demo.customFind false Demo.T
                Demo.evenOrOdd [Demo.evenBranch; Demo.oddBranch] (λ _ _, OutOfFuel)
                Demo.machine VUndef (Demo.ctx 3) Demo.event 1 eq_refl eq_refl)
      as (_ & _ & H & _).
    destruct (H [Demo.evenBranch] Demo.oddBranch [] eq_refl) as [_ H'].
    + repeat constructor.
    + left. reflexivity.
    + exact H'.
  - destruct (choose_first_matching_branch Demo.objectPrototype Demo.native Demo.stringOf
                Demo.toSCXMLEvent Demo.toArray Demo.updateContext Demo.evaluateGuard
                Demo.customFind false Demo.T
                Demo.evenOrOdd [Demo.evenBranch; Demo.oddBranch] (λ _ _, OutOfFuel)
                Demo.machine VUndef (Demo.ctx 2) Demo.event 1 eq_refl eq_refl)
      as (_ & _ & H & _).
    destruct (H [] Demo.evenBranch [Demo.oddBranch] eq_refl) as [_ H'].
    + constructor.
    + right. reflexivity.
    + exact H'.
  - destruct (choose_first_matching_branch Demo.objectPrototype Demo.native Demo.stringOf
                Demo.toSCXMLEvent Demo.toArray Demo.updateContext Demo.evaluateGuard
                Demo.customFind false Demo.T
                Demo.evenOnly [Demo.evenBranch] (λ _ _, OutOfFuel)
                Demo.machine VUndef (Demo.ctx 3) Demo.event 1 eq_refl eq_refl)
      as (_ & _ & _ & H).
    destruct H as [_ H']; [repeat constructor|]. exact H'.
Defined.

Lemma order_preserved_with_splicing_witness :
  (∃ out ctx' w,
     Demo.resolve false Demo.machine 2 (Demo.ctx 1) Demo.mixed = Ok (out, ctx', w)
     ∧ Spliced Demo.objectPrototype Demo.native Demo.stringOf Demo.toSCXMLEvent Demo.toArray
         Demo.updateContext Demo.evaluateGuard Demo.customFind false Demo.T 1 Demo.machine
         VUndef Demo.event
         (assignFold Demo.updateContext Demo.T VUndef (Demo.ctx 1) Demo.event Demo.mixed)
         Demo.mixed out ctx')
  ∧ (∃ out ctx' w,
       Demo.resolve false Demo.machine 1 (Demo.ctx 1) Demo.sendThenLog = Ok (out, ctx', w)
       ∧ Forall2 (λ a r, counterpart Demo.objectPrototype Demo.native Demo.stringOf
                           Demo.toSCXMLEvent Demo.T
                           Demo.machine (Demo.ctx 1) Demo.event a = Ok r)
           Demo.sendThenLog out).
Proof.
  split.
  - eexists _, _, _. split; [reflexivity|].
    eapply (order_preserved_with_splicing Demo.objectPrototype Demo.native Demo.stringOf
              Demo.toSCXMLEvent Demo.toArray Demo.updateContext Demo.evaluateGuard
              Demo.customFind false Demo.T
              1 Demo.machine VUndef (Demo.ctx 1) Demo.event Demo.mixed).
    reflexivity.
  - eexists _, _, _. split; [reflexivity|].
    eapply (order_preserved_with_splicing Demo.objectPrototype Demo.native Demo.stringOf
              Demo.toSCXMLEvent Demo.toArray Demo.updateContext Demo.evaluateGuard
              Demo.customFind false Demo.T
              0 Demo.machine VUndef (Demo.ctx 1) Demo.event Demo.sendThenLog).
    + reflexivity.
    + repeat constructor.
Defined.

Lemma context_after_assigns_and_branches_witness :
  (∃ out ctx' w,
     Demo.resolve false Demo.machine 2 (Demo.ctx 1) Demo.mixed = Ok (out, ctx', w)
     ∧ Threaded Demo.objectPrototype Demo.native Demo.stringOf Demo.toSCXMLEvent Demo.toArray
         Demo.updateContext Demo.evaluateGuard Demo.customFind false Demo.T 1 Demo.machine
         VUndef Demo.event
         (assignFold Demo.updateContext Demo.T VUndef (Demo.ctx 1) Demo.event Demo.mixed)
         Demo.mixed ctx'
     ∧ ctx' = Demo.ctx 3)
  ∧ (∃ out ctx' w,
       Demo.resolve false Demo.machine 1 (Demo.ctx 1) Demo.assignThenLog = Ok (out, ctx', w)
       ∧ ctx' = assignFold Demo.updateContext Demo.T VUndef (Demo.ctx 1) Demo.event
                  Demo.assignThenLog).
Proof.
  split.
  - eexists _, _, _. split; [reflexivity|]. split; [|reflexivity].
    eapply (context_after_assigns_and_branches Demo.objectPrototype Demo.native Demo.stringOf
              Demo.toSCXMLEvent Demo.toArray Demo.updateContext Demo.evaluateGuard
              Demo.customFind false Demo.T
              1 Demo.machine VUndef (Demo.ctx 1) Demo.event Demo.mixed).
    reflexivity.
  - eexists _, _, _. split; [reflexivity|].
    eapply (context_after_assigns_and_branches Demo.objectPrototype Demo.native Demo.stringOf
              Demo.toSCXMLEvent Demo.toArray Demo.updateContext Demo.evaluateGuard
              Demo.customFind false Demo.T
              0 Demo.machine VUndef (Demo.ctx 1) Demo.event Demo.assignThenLog).
    + reflexivity.
    + repeat constructor.
Defined.

Lemma siblings_resolved_after_assigns_witness :
  kindOf Demo.T Demo.logCount ≠ KAssign
  ∧ ∃ out ctx' w,
      Demo.resolve false Demo.machine 2 (Demo.ctx 1)
        ([Demo.pureIncrement] ++ Demo.logCount :: [Demo.increment]) = Ok (out, ctx', w)
      ∧ ∃ ctx_a r,
          Threaded Demo.objectPrototype Demo.native Demo.stringOf Demo.toSCXMLEvent
            Demo.toArray Demo.updateContext Demo.evaluateGuard Demo.customFind false Demo.T
            1 Demo.machine VUndef Demo.event
            (assignFold Demo.updateContext Demo.T VUndef (Demo.ctx 1) Demo.event
               ([Demo.pureIncrement] ++ Demo.logCount :: [Demo.increment]))
            [Demo.pureIncrement] ctx_a
          ∧ counterpart Demo.objectPrototype Demo.native Demo.stringOf Demo.toSCXMLEvent
              Demo.T Demo.machine ctx_a Demo.event Demo.logCount = Ok r
          ∧ r ∈ out.
Proof.
  split; [discriminate|].
  eexists _, _, _. split; [reflexivity|].
  destruct (siblings_resolved_after_assigns Demo.objectPrototype Demo.native Demo.stringOf
              Demo.toSCXMLEvent Demo.toArray Demo.updateContext Demo.evaluateGuard
              Demo.customFind false Demo.T
              1 Demo.machine VUndef (Demo.ctx 1) Demo.event) as [_ H].
  edestruct (H [Demo.pureIncrement] Demo.logCount [Demo.increment])
    as (ctx_a & out1 & out_a & out2 & Hout & HT & _ & _ & Hsingle & _);
    [discriminate|reflexivity|].
  destruct (Hsingle eq_refl) as (r & Hr & ->).
  exists ctx_a, r. split; [exact HT|]. split; [exact Hr|].
  rewrite Hout. apply elem_of_app. right. apply elem_of_app. left. apply list_elem_of_singleton.
  reflexivity.
Defined.

Lemma assigns_never_in_output_witness :
  Forall (λ a, isObject a = true) Demo.greeting
  ∧ ∃ out ctx' w,
      Demo.resolve false Demo.machineGreet 2 (Demo.ctx 1) Demo.greeting = Ok (out, ctx', w)
      ∧ Forall (λ r, hasType (actionTypes.assign Demo.T) r = false) out
      ∧ Consumed Demo.objectPrototype Demo.native Demo.stringOf Demo.toArray
          Demo.updateContext Demo.evaluateGuard Demo.customFind Demo.T Demo.machineGreet
          VUndef Demo.event (Demo.ctx 1) Demo.greeting ctx'
      ∧ ctx' = Demo.ctx 3.
Proof.
  assert (HF : Forall (λ a, isObject a = true) Demo.greeting) by repeat constructor.
  split; [exact HF|].
  destruct (Demo.resolve false Demo.machineGreet 2 (Demo.ctx 1) Demo.greeting)
    as [[[out c] w]| |] eqn:Hres; [|vm_compute in Hres; discriminate Hres..].
  exists out, c, w. split; [reflexivity|].
  destruct (assigns_never_in_output Demo.objectPrototype Demo.native Demo.stringOf
              Demo.toSCXMLEvent Demo.toArray Demo.updateContext Demo.evaluateGuard
              Demo.customFind false Demo.T
              2 Demo.machineGreet VUndef (Demo.ctx 1) Demo.event Demo.greeting
              out c w HF Hres) as (Hc & _ & _ & Hno).
  split; [|split; [exact Hc|]].
  - apply Hno. intros name. unfold lookupIn.
    change (Machine.actions (Machine.options Demo.machineGreet))
      with ({["greet" := Demo.sayHello]} : gmap string value).
    destruct (({["greet" := Demo.sayHello]} : gmap string value) !! name) as [v|] eqn:Hv.
    + apply lookup_singleton_Some in Hv as [_ <-]. reflexivity.
    + destruct (Demo.objectPrototype !! name) as [v|] eqn:Hp; [|reflexivity].
      assert (HP : map_Forall (λ (_ : string) v, hasType (actionTypes.assign Demo.T) v = false)
                     Demo.objectPrototype).
      { apply (bool_decide_unpack _). vm_compute. reflexivity. }
      exact (HP name v Hp).
  - vm_compute in Hres. injection Hres as _ <- _. reflexivity.
Defined.


(** * Further properties of actions.ts *)

Section MoreProperties.

Context (objectPrototype : gmap string value)
  (native : nat → list value → value) (stringOf : value → string)
  (toSCXMLEvent toEventObject getEventType toArray : value → value)
  (updateContext : value → value → list value → value → value)
  (evaluateGuard : Machine.StateNode → value → value → value → value → bool)
  (customFind : value → (value → bool) → value)
  (T : actionTypes.names) (K : Constants.names).

#[local] Abbreviation toKey := (toKey stringOf).
#[local] Abbreviation lookupIn := (lookupIn objectPrototype).
#[local] Abbreviation toActionObject := (toActionObject objectPrototype stringOf).
#[local] Abbreviation toActionObjects := (toActionObjects objectPrototype stringOf).
#[local] Abbreviation toActivityDefinition := (toActivityDefinition objectPrototype stringOf).
#[local] Abbreviation start := (start objectPrototype stringOf K).
#[local] Abbreviation stop := (stop objectPrototype stringOf K).
#[local] Abbreviation send := (send toEventObject getEventType T).
#[local] Abbreviation sendParent := (sendParent toEventObject getEventType T).
#[local] Abbreviation respond := (respond toEventObject getEventType T).
#[local] Abbreviation forwardTo := (forwardTo toEventObject getEventType T).
#[local] Abbreviation raise := (raise toEventObject getEventType T K).
#[local] Abbreviation sendUpdate := (sendUpdate toEventObject getEventType T K).
#[local] Abbreviation log := (log T).
#[local] Abbreviation after := (after stringOf K).
#[local] Abbreviation evalExpr := (evalExpr native).
#[local] Abbreviation resolveRaise := (resolveRaise toSCXMLEvent T).
#[local] Abbreviation resolveSend := (resolveSend objectPrototype native toSCXMLEvent).
#[local] Abbreviation resolveLog := (resolveLog native).
#[local] Abbreviation kindOf := (kindOf T).
#[local] Abbreviation assignFold := (assignFold updateContext T).
#[local] Abbreviation findActions := (findActions customFind).
#[local] Abbreviation condMatches := (condMatches evaluateGuard).
#[local] Abbreviation dispatch b :=
  (dispatch objectPrototype native stringOf toSCXMLEvent toArray evaluateGuard customFind
     b T).
#[local] Abbreviation resolveActions b :=
  (resolveActions objectPrototype native stringOf toSCXMLEvent toArray updateContext
     evaluateGuard customFind b T).

(** ** Canonicalization *)




Lemma mapM_Forall2 {A B} (f : A → outcome B) l ys :
  mapM f l = Ok ys → Forall2 (λ x y, f x = Ok y) l ys.
Proof.
  revert ys. induction l as [|x l IH]; simpl; intros ys H.
  - injection H as <-. constructor.
  - destruct (f x) as [y| |] eqn:Hx; simpl in H; try discriminate.
    destruct (mapM f l) as [ys'| |]; simpl in H; try discriminate.
    injection H as <-. constructor; eauto.
Qed.

(** X3: [toActionObjects] returns no action for an absent action, and also
    for any other falsy one, the empty name included; for an array it
    canonicalizes the entries one by one, in order; for anything else it
    returns the one canonical action. *)
Theorem toActionObjects_shape (action : value) (actionMap : option (gmap string value))
  (acts : list value) :
  toActionObjects action actionMap = Ok acts →
  (truthy action = false → acts = [])
  ∧ (∀ items, action = VArr items →
       Forall2 (λ a r, toActionObject a actionMap = Ok r) items acts)
  ∧ (truthy action = true → (∀ items, action ≠ VArr items) →
       ∃ r, toActionObject action actionMap = Ok r ∧ acts = [r]).
Proof.
  unfold actions.toActionObjects. intros H. split; [|split].
  - intros Hf. rewrite Hf in H. simpl in H. by injection H.
  - intros items ->. simpl in H. by apply mapM_Forall2.
  - intros Ht Hna. rewrite Ht in H. simpl in H.
    assert (H' : mapM (λ subAction, toActionObject subAction actionMap) [action] = Ok acts).
    { destruct action; try exact H. by destruct (Hna items). }
    simpl in H'. destruct (toActionObject action actionMap) as [r| |]; simpl in H';
      try discriminate.
    injection H' as <-. eauto.
Qed.

(** ** Activities *)

Lemma defineToString_no_toString v r :
  defineToString v = Ok r → spread r !! "toString" = None.
Proof.
  destruct v; try discriminate; intros [= <-]; simpl; try done.
  apply lookup_delete_eq.
Qed.

Lemma toActionObject_no_toString a actionMap r :
  toActionObject a actionMap = Ok r → spread r !! "toString" = None.
Proof.
  unfold actions.toActionObject.
  destruct a; try discriminate; repeat case_match; apply defineToString_no_toString.
Qed.

Lemma toActivityDefinition_fixed (activity d : value) :
  toActivityDefinition activity = Ok d → toActivityDefinition d = Ok d.
Proof.
  unfold builders.toActivityDefinition.
  destruct (toActionObject activity None) as [ao| |] eqn:Hao; simpl; try discriminate.
  intros [= <-]. apply toActionObject_no_toString in Hao.
  set (d := <["type" := prop ao "type"]> (spread ao ∪ {["id" := _]})).
  assert (Hty : d !! "type" = Some (prop ao "type"))
    by (unfold d; by rewrite lookup_insert_eq).
  assert (Hid : is_Some (d !! "id")).
  { unfold d. rewrite lookup_insert_ne by done. rewrite lookup_union.
    rewrite lookup_singleton_eq. destruct (spread ao !! "id"); simpl; eauto. }
  assert (Hts : delete "toString" d = d).
  { apply delete_id. unfold d. rewrite lookup_insert_ne by done.
    rewrite lookup_union, Hao. by rewrite lookup_singleton_ne. }
  change (toActionObject (VObj d) None) with (@Ok value (VObj (delete "toString" d))).
  rewrite Hts. simpl. do 2 f_equal. apply map_eq. intros k.
  destruct (decide (k = "type")) as [->|Hk].
  - rewrite lookup_insert_eq. by rewrite lookup_total_alt, Hty.
  - rewrite lookup_insert_ne by done. rewrite lookup_union.
    destruct (decide (k = "id")) as [->|Hk'].
    + destruct Hid as [x Hx]. by rewrite Hx.
    + rewrite lookup_singleton_ne by done. by destruct (d !! k).
Qed.

(** X4: [toActivityDefinition] gives a name the definition [{id: name, type:
    name}], and it is idempotent: the definition it returns is returned
    unchanged when passed again. *)
Theorem toActivityDefinition_idempotent (activity d : value) :
  toActivityDefinition activity = Ok d →
  toActivityDefinition d = Ok d
  ∧ (∀ s, activity = VStr s →
       d = VObj (<["type" := VStr s]> {["id" := VStr s]})).
Proof.
  intros H. split; [by eapply toActivityDefinition_fixed|].
  intros s ->. revert H. unfold builders.toActivityDefinition. simpl.
  intros [= <-]. reflexivity.
Qed.

(** X5: [start] and [stop] of the same activity carry the same activity
    definition, the one [toActivityDefinition] gives, and differ in their type
    only; given an activity definition that is already canonical they carry it
    unchanged. *)
Theorem start_stop_carry_definition (activity d : value) :
  toActivityDefinition activity = Ok d →
  start activity
  = Ok (VObj (<["type" := VStr (Constants.Start K)]> (<["activity" := d]> ∅)))
  ∧ stop activity
    = Ok (VObj (<["type" := VStr (Constants.Stop K)]> (<["activity" := d]> ∅)))
  ∧ start d = start activity
  ∧ stop d = stop activity.
Proof.
  intros H. assert (Hd := toActivityDefinition_fixed _ _ H).
  unfold builders.start, builders.stop. by rewrite H, Hd.
Qed.

(** ** Builders and their resolvers *)

Lemma prop_spread (v : value) k : k ≠ "name" → prop (VObj (spread v)) k = prop v k.
Proof.
  intros Hk. destruct v as [| | | |name src code|o|o| |]; simpl;
    try by rewrite lookup_total_empty.
  - apply String.eqb_neq in Hk. rewrite Hk. by rewrite lookup_total_empty.
  - done.
  - done.
Qed.

Lemma prop_obj_insert_eq (o : gmap string value) k v : prop (VObj (<[k := v]> o)) k = v.
Proof. unfold prop. by rewrite lookup_total_insert_eq. Qed.

Lemma prop_obj_insert_ne (o : gmap string value) k k' v :
  k ≠ k' → prop (VObj (<[k := v]> o)) k' = prop (VObj o) k'.
Proof. intros. unfold prop. by rewrite lookup_total_insert_ne. Qed.

Lemma send_fields event options :
  prop (send event options) "to" = (if truthy options then prop options "to" else VUndef)
  ∧ prop (send event options) "type" = VStr (actionTypes.send T)
  ∧ prop (send event options) "event"
    = (if isFunction event then event else toEventObject event)
  ∧ prop (send event options) "delay"
    = (if truthy options then prop options "delay" else VUndef)
  ∧ prop (send event options) "id"
    = (if truthy options && negb (isUndefined (prop options "id"))
       then prop options "id"
       else if isFunction event then prop event "name" else getEventType event).
Proof.
  unfold actions.send. repeat split; reflexivity.
Qed.

Lemma resolveSend_other_field (o : gmap string value) ctx _event delaysMap k :
  k ∉ ["to"; "_event"; "event"; "delay"] →
  spread (resolveSend (VObj o) ctx _event delaysMap) !! k = o !! k.
Proof.
  intros Hk. unfold actions.resolveSend. cbn [spread].
  rewrite !lookup_insert_ne; [done|..]; intros <-; apply Hk; repeat constructor.
Qed.

Lemma resolveSend_other_prop (o : gmap string value) ctx _event delaysMap k :
  k ∉ ["to"; "_event"; "event"; "delay"] →
  prop (resolveSend (VObj o) ctx _event delaysMap) k = prop (VObj o) k.
Proof.
  intros Hk. unfold prop.
  change (spread (resolveSend (VObj o) ctx _event delaysMap) !!! k = o !!! k).
  by rewrite !lookup_total_alt, resolveSend_other_field.
Qed.

Lemma resolveSend_to action ctx _event delaysMap :
  prop (resolveSend action ctx _event delaysMap) "to" = evalExpr (prop action "to") ctx _event.
Proof. unfold actions.resolveSend. by rewrite prop_obj_insert_eq. Qed.

(** X6: [raise] of an event name is a raise action, which resolves to the
    envelope of that name; [raise] of anything else is a send action, which
    resolves with the internal target. *)
Theorem raise_name_or_send (event ctx _event : value)
  (delaysMap : option (gmap string value)) :
  (∀ s, event = VStr s →
     hasType (actionTypes.raise T) (raise event) = true
     ∧ prop (resolveRaise (raise event)) "_event" = toSCXMLEvent (VStr s))
  ∧ (isString event = false →
     hasType (actionTypes.send T) (raise event) = true
     ∧ prop (resolveSend (raise event) ctx _event delaysMap) "to"
       = VStr (Constants.Internal K)).
Proof.
  split.
  - intros s ->. unfold builders.raise. cbn [isString negb]. split.
    + unfold hasType. rewrite prop_obj_insert_eq. apply String.eqb_refl.
    + unfold actions.resolveRaise.
      rewrite prop_obj_insert_ne, prop_obj_insert_eq by done.
      by rewrite prop_obj_insert_ne, prop_obj_insert_eq.
  - intros Hs. unfold builders.raise. rewrite Hs. simpl negb. cbv iota.
    destruct (send_fields event (VObj {["to" := VStr (Constants.Internal K)]}))
      as (Hto & Hty & _).
    split.
    + unfold hasType. rewrite Hty. apply String.eqb_refl.
    + rewrite resolveSend_to, Hto. simpl truthy. cbv iota.
      unfold prop. by rewrite lookup_total_singleton_eq.
Qed.

(** X7: the options of [sendParent], [forwardTo] and [respond] cannot redirect
    the action: whatever [to] the options carry, the resolved target is the
    parent, the given target, and the origin of the triggering envelope; the
    delay and the id of the options are kept.  [sendUpdate] is sent to the
    parent as well. *)
Theorem derived_senders_fix_the_target (event target options ctx _event : value)
  (delaysMap : option (gmap string value)) :
  isFunction target = false →
  prop (resolveSend (sendParent event options) ctx _event delaysMap) "to"
  = VStr (actionTypes.Parent T)
  ∧ prop (resolveSend (forwardTo target options) ctx _event delaysMap) "to" = target
  ∧ prop (resolveSend (respond event options) ctx _event delaysMap) "to"
    = prop _event "origin"
  ∧ prop (resolveSend sendUpdate ctx _event delaysMap) "to" = VStr (actionTypes.Parent T)
  ∧ prop (sendParent event options) "delay" = prop options "delay"
  ∧ prop (forwardTo target options) "delay" = prop options "delay"
  ∧ prop (respond event options) "delay" = prop options "delay"
  ∧ prop (sendParent event options) "id" = prop (send event options) "id".
Proof.
  intros Ht.
  assert (Hdelay : ∀ e v, prop (send e (VObj (<["to" := v]> (spread options)))) "delay"
                          = prop options "delay").
  { intros e v. destruct (send_fields e (VObj (<["to" := v]> (spread options))))
      as (_ & _ & _ & -> & _).
    simpl truthy. cbv iota. rewrite prop_obj_insert_ne by done. by apply prop_spread. }
  assert (Hto : ∀ e v, prop (send e (VObj (<["to" := v]> (spread options)))) "to" = v).
  { intros e v. destruct (send_fields e (VObj (<["to" := v]> (spread options))))
      as (-> & _).
    simpl truthy. cbv iota. by rewrite prop_obj_insert_eq. }
  split; [|split; [|split; [|split; [|split; [|split; [|split]]]]]].
  - unfold actions.sendParent. by rewrite resolveSend_to, Hto.
  - unfold actions.forwardTo. rewrite resolveSend_to, Hto. by destruct target.
  - unfold actions.respond. rewrite resolveSend_to, Hto.
    unfold actions.evalExpr, actions.run.
    change ([ctx; prop _event "data"; VObj {["_event" := _event]}] !!! 2%nat)
      with (VObj {["_event" := _event]}).
    unfold prop at 2. by rewrite lookup_total_singleton_eq.
  - unfold builders.sendUpdate, actions.sendParent. rewrite resolveSend_to.
    destruct (send_fields (VStr (Constants.update K))
                (VObj (<["to" := VStr (actionTypes.Parent T)]> (spread VUndef))))
      as (-> & _).
    simpl truthy. cbv iota. by rewrite prop_obj_insert_eq.
  - apply Hdelay.
  - apply Hdelay.
  - apply Hdelay.
  - unfold actions.sendParent.
    destruct (send_fields event (VObj (<["to" := VStr (actionTypes.Parent T)]> (spread options))))
      as (_ & _ & _ & _ & ->).
    destruct (send_fields event options) as (_ & _ & _ & _ & ->).
    simpl truthy. rewrite prop_obj_insert_ne by done.
    rewrite prop_spread by done.
    destruct options as [| | | | | | | |]; try reflexivity; simpl.
    + by destruct b.
    + by destruct (negb (n =? 0)).
    + by destruct (negb (String.eqb s "")).
Qed.

(** X8: the id of a resolved send action is the id its builder chose, which
    is the [id] option when there is one, else the name of the event function,
    else the type of the event; resolution does not touch it, so the action
    can be cancelled by that id. *)
Theorem send_id_survives_resolution (event options ctx _event : value)
  (delaysMap : option (gmap string value)) :
  prop (resolveSend (send event options) ctx _event delaysMap) "id"
  = prop (send event options) "id"
  ∧ (truthy options = true → isUndefined (prop options "id") = false →
     prop (send event options) "id" = prop options "id")
  ∧ (truthy options = false ∨ isUndefined (prop options "id") = true →
     prop (send event options) "id"
     = (if isFunction event then prop event "name" else getEventType event)).
Proof.
  destruct (send_fields event options) as (_ & _ & _ & _ & Hid).
  split; [|split].
  - unfold actions.send at 1. apply resolveSend_other_prop.
    apply (bool_decide_unpack _). reflexivity.
  - intros Ht Hu. by rewrite Hid, Ht, Hu.
  - intros [Ht|Hu]; rewrite Hid.
    + by rewrite Ht.
    + rewrite Hu. by rewrite andb_false_r.
Qed.


(** X10: a log action built by [log] always resolves.  Without an expression
    it logs the context and the event payload; with a string it logs that
    string as it is; the label, like every property other than [value], is
    carried over. *)
Theorem log_resolves (expr label ctx _event : value) :
  isString expr = true ∨ isFunction expr = true ∨ expr = VUndef →
  ∃ r, resolveLog (log expr label) ctx _event = Ok r
       ∧ prop r "label" = label
       ∧ prop r "type" = VStr (actionTypes.log T)
       ∧ (expr = VUndef →
          prop r "value"
          = VObj (<["context" := ctx]> (<["event" := prop _event "data"]> ∅)))
       ∧ (isString expr = true → prop r "value" = expr).
Proof.
  intros He. unfold actions.resolveLog.
  assert (Hexpr : prop (log expr label) "expr"
    = match expr with
      | VUndef => VFun "defaultLogExpr" "(context, event) => ({ context, event })"
                    DefaultLogExpr
      | _ => expr
      end).
  { reflexivity. }
  rewrite Hexpr.
  assert (Hfields : ∀ v,
    prop (VObj (<["value" := v]> (spread (log expr label)))) "label" = label
    ∧ prop (VObj (<["value" := v]> (spread (log expr label)))) "type"
      = VStr (actionTypes.log T)
    ∧ prop (VObj (<["value" := v]> (spread (log expr label)))) "value" = v).
  { intros v. repeat split; reflexivity. }
  destruct expr as [| | |s|name src code| | | |];
    try (by destruct He as [He|[He|He]]); simpl.
  - eexists. split; [done|]. destruct (Hfields (VObj (<["context" := ctx]>
      (<["event" := prop _event "data"]> ∅)))) as (Hl & Hty & Hv).
    split; [exact Hl|]. split; [exact Hty|]. split; [by intros _|]. by intros.
  - eexists. split; [done|]. destruct (Hfields (VStr s)) as (Hl & Hty & Hv).
    split; [exact Hl|]. split; [exact Hty|]. split; [by intros|]. by intros _.
  - eexists. split; [done|].
    destruct (Hfields (run native code [ctx; prop _event "data"; VObj {["_event" := _event]}]))
      as (Hl & Hty & Hv).
    split; [exact Hl|]. split; [exact Hty|]. split; by intros.
Qed.

(** ** The driver on whole lists *)

Lemma others_all (l : list value) :
  Forall (λ a, kindOf a ≠ KAssign) l →
  List.filter (λ a, negb (hasType (actionTypes.assign T) a)) l = l
  ∧ List.filter (hasType (actionTypes.assign T)) l = [].
Proof.
  induction 1 as [|a l Ha _ [IH1 IH2]]; [done|]. simpl.
  apply kindOf_not_assign in Ha. rewrite Ha. simpl. by rewrite IH1, IH2.
Qed.

Lemma assigns_all (l : list value) :
  Forall (λ a, kindOf a = KAssign) l →
  List.filter (λ a, negb (hasType (actionTypes.assign T) a)) l = []
  ∧ List.filter (hasType (actionTypes.assign T)) l = l.
Proof.
  induction 1 as [|a l Ha _ [IH1 IH2]]; [done|]. simpl.
  apply kindOf_assign in Ha. rewrite Ha. simpl. by rewrite IH1, IH2.
Qed.


(** X12: resolution composes along the list.  When the second part of a list
    holds no assign action, resolving the whole list is resolving the first
    part and then the second part in the context the first returned; the
    resolved actions and the diagnostics are concatenated. *)
Theorem resolution_of_concatenation (b : bool) (n : nat) (machine : Machine.StateNode)
  (st ctx _event : value) (l1 l2 : list value) :
  Forall (λ a, kindOf a ≠ KAssign) l2 →
  resolveActions b (S n) machine st ctx _event (l1 ++ l2)
  = '(o1, c1, w1) ← resolveActions b (S n) machine st ctx _event l1;
    '(o2, c2, w2) ← resolveActions b (S n) machine st c1 _event l2;
    Ok (o1 ++ o2, c2, w1 ++ w2).
Proof.
  intros HF. destruct (others_all _ HF) as [Ho Ha].
  rewrite (resolveActions_S _ _ _ _ _ _ _ _ _ _ n machine st ctx _event (l1 ++ l2)).
  rewrite (resolveActions_S _ _ _ _ _ _ _ _ _ _ n machine st ctx _event l1).
  assert (Hfold : assignFold st ctx _event (l1 ++ l2) = assignFold st ctx _event l1).
  { unfold actions.assignFold. by rewrite List.filter_app, Ha, app_nil_r. }
  rewrite Hfold, List.filter_app, Ho, resolveEach_app.
  destruct (resolveEach _ _ (assignFold st ctx _event l1)) as [[[r1 c1] w1]| |];
    cbn [mbind outcome_bind]; try reflexivity.
  rewrite resolveActions_S. rewrite assignFold_no_assign by done. rewrite Ho.
  destruct (resolveEach _ l2 c1) as [[[r2 c2] w2]| |]; simpl; try reflexivity.
  unfold flatten. by rewrite concat_app.
Qed.

(** X13: a list of assign actions only resolves to no action at all, and its
    context is what the context updater makes of the input context and the
    whole list, in one call; for the empty list the updater is not called and
    the context is the input context. *)
Theorem assigns_only (b : bool) (n : nat) (machine : Machine.StateNode)
  (st ctx _event : value) (acts : list value) :
  Forall (λ a, kindOf a = KAssign) acts →
  resolveActions b (S n) machine st ctx _event acts
  = Ok ([], match acts with
            | [] => ctx
            | _ => updateContext ctx _event acts st
            end, []).
Proof.
  intros HF. destruct (assigns_all _ HF) as [Ho Ha].
  rewrite resolveActions_S. unfold actions.assignFold. rewrite Ho, Ha. simpl.
  by destruct acts.
Qed.

(** ** Diagnostics *)

Lemma resolveEach_silent cb cb' l :
  (∀ a c, silent (cb a c) = silent (cb' a c)) →
  ∀ c, silent (resolveEach cb l c) = silent (resolveEach cb' l c).
Proof.
  intros Hcb. induction l as [|a l IH]; intros c; [done|]. simpl.
  specialize (Hcb a c).
  destruct (cb a c) as [[[r c1] w]| |], (cb' a c) as [[[r' c1'] w']| |];
    simpl in Hcb |- *; try discriminate; try reflexivity.
  injection Hcb as <- <-. specialize (IH c1).
  destruct (resolveEach cb l c1) as [[[rs c2] w2]| |],
           (resolveEach cb' l c1) as [[[rs' c2'] w2']| |];
    simpl in IH |- *; try discriminate; try reflexivity.
  by injection IH as <- <-.
Qed.

Lemma dispatch_silent b b' nested nested' machine st _event a c :
  (∀ c0 acts, silent (nested c0 acts) = silent (nested' c0 acts)) →
  silent (dispatch b nested machine st _event a c)
  = silent (dispatch b' nested' machine st _event a c).
Proof.
  intros Hn. unfold actions.dispatch.
  destruct (hasType (actionTypes.raise T) a); [done|].
  destruct (hasType (actionTypes.send T) a); [done|].
  destruct (hasType (actionTypes.log T) a); [done|].
  assert (Hbranch : ∀ matched,
    silent (if negb (truthy matched) then Ok ([], c, [])
            else acts ← toActionObjects (toArray matched)
                          (Some (Machine.actions (Machine.options machine)));
                 nested c acts)
    = silent (if negb (truthy matched) then Ok ([], c, [])
              else acts ← toActionObjects (toArray matched)
                            (Some (Machine.actions (Machine.options machine)));
                   nested' c acts)).
  { intros matched. destruct (negb (truthy matched)); [done|].
    destruct (toActionObjects _ _) as [acts| |]; simpl; [|done|done]. apply Hn. }
  destruct (hasType (actionTypes.choose T) a).
  { destruct (findActions _ _) as [matched| |]; simpl; first [done|apply Hbranch]. }
  destruct (hasType (actionTypes.pure T) a); [|done].
  destruct (call _ _ _) as [matched| |]; simpl; first [done|apply Hbranch].
Qed.

Lemma resolveActions_silent b b' n machine st :
  ∀ ctx _event acts,
    silent (resolveActions b n machine st ctx _event acts)
    = silent (resolveActions b' n machine st ctx _event acts).
Proof.
  induction n as [|n IH]; intros ctx _event acts; [done|].
  rewrite !resolveActions_S.
  pose proof (resolveEach_silent
    (dispatch b (λ c nested, resolveActions b n machine st c _event nested) machine st _event)
    (dispatch b' (λ c nested, resolveActions b' n machine st c _event nested) machine st _event)
    (List.filter (λ a, negb (hasType (actionTypes.assign T) a)) acts)) as He.
  specialize (He (λ a c, dispatch_silent b b' _ _ machine st _event a c
                           (λ c0 nested, IH c0 _event nested))
                 (assignFold st ctx _event acts)).
  destruct (resolveEach _ _ _) as [[[rs c2] w2]| |],
           (resolveEach _ _ _) as [[[rs' c2'] w2']| |];
    simpl in He |- *; try discriminate; try reflexivity.
  by injection He as <- <-.
Qed.

(** X14: the build mode decides which diagnostics are written and nothing
    else: in a production build and in any other build a call returns the
    same resolved actions and the same context, or fails the same way. *)
Theorem build_mode_does_not_alter_resolution (n : nat) (machine : Machine.StateNode)
  (st ctx _event : value) (acts : list value) :
  silent (resolveActions true n machine st ctx _event acts)
  = silent (resolveActions false n machine st ctx _event acts).
Proof. apply resolveActions_silent. Qed.

Lemma resolveEach_quiet cb l :
  (∀ a c r c' w, cb a c = Ok (r, c', w) → w = []) →
  ∀ c rs c' w, resolveEach cb l c = Ok (rs, c', w) → w = [].
Proof.
  intros Hcb. induction l as [|a l IH]; intros c rs c' w H; simpl in H.
  - by injection H.
  - destruct (cb a c) as [[[r c1] w1]| |] eqn:Ha; simpl in H; try discriminate.
    destruct (resolveEach cb l c1) as [[[rs' c2] w2]| |] eqn:Hl; simpl in H; try discriminate.
    injection H as <- <- <-. by rewrite (Hcb _ _ _ _ _ Ha), (IH _ _ _ _ Hl).
Qed.

(** X15: a production build never writes a diagnostic, at any depth of the
    resolution. *)
Theorem production_writes_nothing (n : nat) (machine : Machine.StateNode)
  (st ctx _event : value) (acts out : list value) (ctx' : value) (w : list string) :
  resolveActions true n machine st ctx _event acts = Ok (out, ctx', w) → w = [].
Proof.
  revert ctx _event acts out ctx' w.
  induction n as [|n IH]; intros ctx _event acts out ctx' w H; [discriminate|].
  rewrite resolveActions_S in H.
  destruct (resolveEach _ _ _) as [[[rs c2] w2]| |] eqn:He; simpl in H; try discriminate.
  injection H as <- <- <-.
  eapply resolveEach_quiet; [|exact He].
  intros a c r c' w. unfold actions.dispatch.
  destruct (hasType (actionTypes.raise T) a); [by intros [= <- <- <-]|].
  destruct (hasType (actionTypes.send T) a); [by intros [= <- <- <-]|].
  destruct (hasType (actionTypes.log T) a).
  { destruct (actions.resolveLog _ _ _ _) as [x| |]; simpl; try discriminate.
    by intros [= <- <- <-]. }
  assert (Hbranch : ∀ matched,
    (if negb (truthy matched) then Ok ([], c, [])
     else nested ← toActionObjects (toArray matched)
                     (Some (Machine.actions (Machine.options machine)));
          resolveActions true n machine st c _event nested) = Ok (r, c', w) → w = []).
  { intros matched. destruct (negb (truthy matched)); [by intros [= <- <- <-]|].
    destruct (toActionObjects _ _) as [nested| |]; simpl; try discriminate. apply IH. }
  destruct (hasType (actionTypes.choose T) a).
  { destruct (findActions _ _) as [matched| |]; simpl; try discriminate. apply Hbranch. }
  destruct (hasType (actionTypes.pure T) a).
  { destruct (call _ _ _) as [matched| |]; simpl; try discriminate. apply Hbranch. }
  destruct (actions.toActionObject _ _ _ _) as [x| |]; simpl; try discriminate.
  by intros [= <- <- <-].
Qed.

(** ** Malformed actions *)





(** ** Objects with identity, continued *)

#[local] Abbreviation refs_toActionObject :=
  (Refs.toActionObject objectPrototype stringOf).
#[local] Abbreviation refs_dispatch b :=
  (Refs.dispatch objectPrototype native stringOf toSCXMLEvent toArray evaluateGuard
     customFind b T).
#[local] Abbreviation refs_resolveActions b :=
  (Refs.resolveActions objectPrototype native stringOf toSCXMLEvent toArray updateContext
     evaluateGuard customFind b T).






Lemma deref_app σ new a t :
  hasType t (Refs.deref σ a) = true → Refs.deref (σ ++ new) a = Refs.deref σ a.
Proof.
  destruct a as [| | | | | | | |l]; try done. simpl.
  destruct (σ !! l) as [c|] eqn:Hl; [|discriminate].
  intros _. by rewrite (lookup_app_l_Some _ _ _ _ Hl).
Qed.

Lemma kind_sent a : kindOf a ∈ [KRaise; KSend; KLog] →
  hasType (actionTypes.raise T) a = true ∨ hasType (actionTypes.send T) a = true
  ∨ hasType (actionTypes.log T) a = true.
Proof.
  unfold actions.kindOf.
  destruct (hasType (actionTypes.assign T) a); [intros H; exfalso|].
  { repeat (apply elem_of_cons in H as [H|H]; [discriminate|]). by apply elem_of_nil in H. }
  destruct (hasType (actionTypes.raise T) a); [by left|].
  destruct (hasType (actionTypes.send T) a); [by right; left|].
  destruct (hasType (actionTypes.log T) a); [by right; right|].
  intros H; exfalso. repeat case_match;
    repeat (apply elem_of_cons in H as [H|H]; [discriminate|]); by apply elem_of_nil in H.
Qed.

Lemma refs_resolveEach_appends b nested machine st _event l :
  ∀ c τ rs c' w τ',
    Forall (λ a, kindOf (Refs.deref τ a) ∈ [KRaise; KSend; KLog]) l →
    Refs.resolveEach (refs_dispatch b nested machine st _event) l c τ = Ok (rs, c', w, τ') →
    ∃ new, τ' = τ ++ new ∧ concat rs = VRef <$> seq (length τ) (length new).
Proof.
  induction l as [|a l IH]; intros c τ rs c' w τ' HF H; simpl in H.
  - injection H as <- <- <- <-. exists []. by rewrite app_nil_r.
  - inversion HF as [|? ? Ha HF']; subst.
    destruct (refs_dispatch b nested machine st _event a c τ)
      as [[[[r c1] w1] τ1]| |] eqn:Hd; simpl in H; try discriminate.
    destruct (Refs.resolveEach _ l c1 τ1) as [[[[rs' c2] w2] τ2]| |] eqn:Hl; simpl in H;
      try discriminate.
    injection H as <- <- <- <-.
    assert (Hone : ∃ cell, τ1 = τ ++ [cell] ∧ r = [VRef (length τ)]).
    { revert Hd. unfold Refs.dispatch. cbv zeta. unfold Refs.alloc.
      pose proof Ha as Hk. unfold actions.kindOf in Hk.
      destruct (hasType (actionTypes.assign T) _).
      { exfalso. repeat (apply elem_of_cons in Hk as [Hk|Hk]; [discriminate|]).
        by apply elem_of_nil in Hk. }
      destruct (hasType (actionTypes.raise T) _); [intros [= <- <- <- <-]; eauto|].
      destruct (hasType (actionTypes.send T) _); [intros [= <- <- <- <-]; eauto|].
      destruct (hasType (actionTypes.log T) _).
      { destruct (actions.resolveLog _ _ _ _) as [x| |]; simpl; try discriminate.
        intros [= <- <- <- <-]. eauto. }
      exfalso. repeat case_match;
        repeat (apply elem_of_cons in Hk as [Hk|Hk]; [discriminate|]);
        by apply elem_of_nil in Hk. }
    destruct Hone as (cell & -> & ->).
    assert (HF1 : Forall (λ a, kindOf (Refs.deref (τ ++ [cell]) a) ∈ [KRaise; KSend; KLog]) l).
    { eapply Forall_impl; [exact HF'|]. intros x Hx. cbv beta in Hx |- *.
      destruct (kind_sent _ Hx) as [Hy|[Hy|Hy]]; by rewrite (deref_app _ _ _ _ Hy). }
    destruct (IH _ _ _ _ _ _ HF1 Hl) as (new & -> & Hrs).
    exists (cell :: new). split; [by rewrite <- app_assoc|].
    simpl. rewrite Hrs, length_app. simpl. by rewrite Nat.add_1_r.
Qed.

(** X18: resolving raise, send, log and assign actions creates objects and
    writes to none: the store afterwards is the store before with new objects
    appended, and the resolved actions are exactly these new objects, in
    order.  No input action is returned, and none gets a [toString]. *)
Theorem resolved_actions_are_new_objects (b : bool) (fuel : nat) (machine : Machine.StateNode)
  (st ctx _event : value) (acts out : list value) (σ σ' : list Refs.cell)
  (ctx' : value) (w : list string) :
  Forall (λ a, kindOf (Refs.deref σ a) ∈ [KAssign; KRaise; KSend; KLog]) acts →
  refs_resolveActions b fuel machine st ctx _event acts σ = Ok ((out, ctx', w), σ') →
  ∃ new, σ' = σ ++ new ∧ out = VRef <$> seq (length σ) (length new).
Proof.
  intros HF H. destruct fuel as [|n]; [discriminate|]. simpl in H.
  destruct (Refs.resolveEach _ _ _ σ) as [[[[rs c2] w2] σ2]| |] eqn:He; simpl in H;
    try discriminate.
  injection H as <- <- <- <-.
  eapply refs_resolveEach_appends; [|exact He].
  apply Forall_forall. intros a Ha.
  apply list_elem_of_In, List.filter_In in Ha as [Ha Hna].
  rewrite Forall_forall in HF. specialize (HF a (proj2 (list_elem_of_In _ _) Ha)).
  cbv beta in HF. apply negb_true_iff in Hna.
  apply elem_of_cons in HF as [HF|HF]; [|done].
  apply kindOf_assign in HF. congruence.
Qed.

(** ** Delayed-event names *)

Lemma append_cancel (p a b : string) : p +:+ a = p +:+ b → a = b.
Proof. apply (inj (String.app p)). Qed.

Lemma append_assoc (a b c : string) : (a +:+ b) +:+ c = a +:+ (b +:+ c).
Proof.
  induction a as [|x a IH]; [done|].
  change (String x ((a +:+ b) +:+ c) = String x (a +:+ (b +:+ c))). by rewrite IH.
Qed.

(** X19: the name [after] gives a delayed event.  Without a state id, and
    also with the empty id, it is the prefix followed by the delay in
    parentheses; with an id, the id follows after a '#', so that for one delay
    different ids give different names. *)
Theorem after_names (delayRef id : value) (i1 i2 : string) :
  (truthy id = false →
   after delayRef id = Constants.After K +:+ "(" +:+ toKey delayRef +:+ ")")
  ∧ after delayRef (VStr "") = after delayRef VUndef
  ∧ (i1 ≠ "" →
     after delayRef (VStr i1)
     = after delayRef VUndef +:+ "#" +:+ i1)
  ∧ (i1 ≠ "" → i2 ≠ "" →
     after delayRef (VStr i1) = after delayRef (VStr i2) → i1 = i2).
Proof.
  assert (Hid : ∀ i, i ≠ "" →
    after delayRef (VStr i)
    = Constants.After K +:+ "(" +:+ toKey delayRef +:+ ")" +:+ "#" +:+ i).
  { intros i Hi. unfold builders.after. simpl truthy.
    apply String.eqb_neq in Hi. by rewrite Hi. }
  split; [|split; [|split]].
  - intros Hf. unfold builders.after. by rewrite Hf.
  - reflexivity.
  - intros H1. rewrite (Hid _ H1). unfold builders.after. simpl truthy. cbv iota zeta.
    by rewrite !append_assoc.
  - intros H1 H2. rewrite (Hid _ H1), (Hid _ H2). intros H.
    do 4 apply append_cancel in H. by injection H.
Qed.

(** ** Branches that do nothing *)

Lemma resolveEach_skip cb l1 a l2 c :
  (∀ c0, cb a c0 = Ok ([], c0, [])) →
  ('(rs, c', w) ← resolveEach cb (l1 ++ a :: l2) c; Ok (flatten rs, c', w))
  = ('(rs, c', w) ← resolveEach cb (l1 ++ l2) c; Ok (flatten rs, c', w)).
Proof.
  intros Ha. rewrite !resolveEach_app. simpl.
  destruct (resolveEach cb l1 c) as [[[r1 c1] w1]| |]; simpl; try reflexivity.
  rewrite Ha. simpl.
  destruct (resolveEach cb l2 c1) as [[[r2 c2] w2]| |]; simpl; try reflexivity.
  unfold flatten. by rewrite !concat_app.
Qed.

(** X20: a choose action without branches, and a pure action whose function
    yields nothing, do nothing: the list resolves exactly as it does without
    them. *)
Theorem empty_branching_is_no_action (b : bool) (n : nat) (machine : Machine.StateNode)
  (st ctx _event : value) (l1 l2 : list value) (a : value) :
  (kindOf a = KChoose ∧ prop a "conds" = VArr [])
  ∨ (kindOf a = KPure
     ∧ ∀ c, ∃ v, call native (prop a "get") [c; prop _event "data"] = Ok v
                 ∧ truthy v = false) →
  resolveActions b (S n) machine st ctx _event (l1 ++ a :: l2)
  = resolveActions b (S n) machine st ctx _event (l1 ++ l2).
Proof.
  intros Ha.
  assert (Hna : hasType (actionTypes.assign T) a = false).
  { apply kindOf_not_assign. destruct Ha as [(Hk & _)|(Hk & _)]; by rewrite Hk. }
  rewrite !resolveActions_S. unfold actions.assignFold.
  rewrite !List.filter_app. simpl. rewrite Hna. simpl.
  apply resolveEach_skip. intros c0.
  destruct Ha as [(Hk & Hc)|(Hk & Hg)].
  - rewrite dispatch_choose by done. by rewrite Hc.
  - rewrite dispatch_pure by done. destruct (Hg c0) as (v & -> & Hv). simpl. by rewrite Hv.
Qed.

(** X21: in a choose action the branches behind a branch without a guard are
    never looked at: replacing them by any others leaves the resolution of the
    list as it is. *)
Theorem branches_behind_unguarded_are_dead (b : bool) (o c : gmap string value)
  (pre post post' l1 l2 : list value) (machine : Machine.StateNode)
  (st ctx _event : value) (fuel : nat) :
  kindOf (VObj o) = KChoose →
  o !! "conds" = Some (VArr (pre ++ VObj c :: post)) →
  c !! "cond" = None →
  resolveActions b fuel machine st ctx _event (l1 ++ VObj o :: l2)
  = resolveActions b fuel machine st ctx _event
      (l1 ++ VObj (<["conds" := VArr (pre ++ VObj c :: post')]> o) :: l2).
Proof.
  intros Hk Hconds Hcond.
  assert (Hm : ∀ ctx', condMatches machine st ctx' _event (VObj c) = true).
  { intros ctx'. apply condMatches_no_guard. unfold prop.
    by rewrite lookup_total_alt, Hcond. }
  destruct fuel as [|n]; [reflexivity|].
  set (o' := <["conds" := VArr (pre ++ VObj c :: post')]> o).
  assert (Hk' : kindOf (VObj o') = KChoose) by (unfold o'; by rewrite kindOf_insert_ne).
  assert (Hna : kindOf (VObj o) ≠ KAssign) by (by rewrite Hk).
  assert (Hna' : kindOf (VObj o') ≠ KAssign) by (by rewrite Hk').
  rewrite !resolveActions_S.
  rewrite (assignFold_replace _ _ st ctx _event l1 l2 _ _ Hna Hna').
  destruct (others_replace _ l1 l2 _ _ Hna Hna') as [-> ->].
  rewrite (resolveEach_replace _ _ _ (VObj o) (VObj o')); [done|].
  intros c0. rewrite !dispatch_choose by done.
  rewrite (prop_lookup _ _ _ Hconds). unfold o'. rewrite prop_insert_eq.
  assert (Hfind : List.find (condMatches machine st c0 _event)
                    (pre ++ VObj c :: post)
                  = List.find (condMatches machine st c0 _event)
                      (pre ++ VObj c :: post')).
  { clear -Hm. induction pre as [|y pre IH]; simpl.
    - by rewrite Hm.
    - by destruct (condMatches machine st c0 _event y). }
  unfold actions.findActions. by rewrite Hfind.
Qed.

End MoreProperties.

(** ** The further properties at work *)



Lemma toActionObjects_shape_witness :
  (∃ acts, toActionObjects Demo.objectPrototype Demo.stringOf (VArr [VStr "greet"; VObj Demo.inc]) None = Ok acts
           ∧ Forall2 (λ a r, toActionObject Demo.objectPrototype Demo.stringOf a None = Ok r)
               [VStr "greet"; VObj Demo.inc] acts)
  ∧ toActionObjects Demo.objectPrototype Demo.stringOf (VStr "") None = Ok [].
Proof.
  split.
  - eexists. split; [reflexivity|].
    eapply (toActionObjects_shape Demo.objectPrototype Demo.stringOf (VArr [VStr "greet"; VObj Demo.inc]) None);
      reflexivity.
  - reflexivity.
Defined.

Lemma toActivityDefinition_idempotent_witness :
  toActivityDefinition Demo.objectPrototype Demo.stringOf DemoMore.beeping
  = Ok (VObj (<["id" := VUndef]> (spread DemoMore.beeping)))
  ∧ toActivityDefinition Demo.objectPrototype Demo.stringOf (VObj (<["id" := VUndef]> (spread DemoMore.beeping)))
    = Ok (VObj (<["id" := VUndef]> (spread DemoMore.beeping))).
Proof.
  assert (H : toActivityDefinition Demo.objectPrototype Demo.stringOf DemoMore.beeping
              = Ok (VObj (<["id" := VUndef]> (spread DemoMore.beeping)))) by reflexivity.
  split; [exact H|].
  exact (proj1 (toActivityDefinition_idempotent Demo.objectPrototype Demo.stringOf _ _ H)).
Defined.

Lemma start_stop_carry_definition_witness :
  toActivityDefinition Demo.objectPrototype Demo.stringOf (VStr "beeping")
  = Ok (VObj (<["type" := VStr "beeping"]> {["id" := VStr "beeping"]}))
  ∧ start Demo.objectPrototype Demo.stringOf DemoMore.K (VStr "beeping")
    = Ok (VObj (<["type" := VStr "xstate.start"]>
                  (<["activity" := VObj (<["type" := VStr "beeping"]>
                                           {["id" := VStr "beeping"]})]> ∅)))
  ∧ stop Demo.objectPrototype Demo.stringOf DemoMore.K
      (VObj (<["type" := VStr "beeping"]> {["id" := VStr "beeping"]}))
    = stop Demo.objectPrototype Demo.stringOf DemoMore.K (VStr "beeping").
Proof.
  assert (H : toActivityDefinition Demo.objectPrototype Demo.stringOf (VStr "beeping")
              = Ok (VObj (<["type" := VStr "beeping"]> {["id" := VStr "beeping"]})))
    by reflexivity.
  destruct (start_stop_carry_definition Demo.objectPrototype Demo.stringOf DemoMore.K _ _ H)
    as (H1 & _ & _ & H4).
  split; [exact H|]. split; [exact H1|exact H4].
Defined.

Lemma raise_name_or_send_witness :
  prop (resolveRaise Demo.toSCXMLEvent Demo.T
          (raise Demo.toEventObject Demo.getEventType Demo.T DemoMore.K (VStr "PING")))
    "_event" = Demo.toSCXMLEvent (VStr "PING")
  ∧ prop (resolveSend Demo.objectPrototype Demo.native Demo.toSCXMLEvent
            (raise Demo.toEventObject Demo.getEventType Demo.T DemoMore.K
               (VObj {["type" := VStr "PING"]}))
            (Demo.ctx 1) Demo.event None) "to" = VStr "#_internal".
Proof.
  split.
  - destruct (raise_name_or_send Demo.objectPrototype Demo.native Demo.toSCXMLEvent Demo.toEventObject
                Demo.getEventType Demo.T DemoMore.K (VStr "PING") (Demo.ctx 1)
                Demo.event None) as [H _].
    exact (proj2 (H "PING" eq_refl)).
  - destruct (raise_name_or_send Demo.objectPrototype Demo.native Demo.toSCXMLEvent Demo.toEventObject
                Demo.getEventType Demo.T DemoMore.K (VObj {["type" := VStr "PING"]})
                (Demo.ctx 1) Demo.event None) as [_ H].
    exact (proj2 (H eq_refl)).
Defined.

Lemma derived_senders_fix_the_target_witness :
  isFunction (VStr "child") = false
  ∧ prop (resolveSend Demo.objectPrototype Demo.native Demo.toSCXMLEvent
            (sendParent Demo.toEventObject Demo.getEventType Demo.T (VStr "PING")
               DemoMore.elsewhere)
            (Demo.ctx 1) Demo.event None) "to" = VStr "#_parent"
  ∧ prop (resolveSend Demo.objectPrototype Demo.native Demo.toSCXMLEvent
            (forwardTo Demo.toEventObject Demo.getEventType Demo.T (VStr "child")
               DemoMore.elsewhere)
            (Demo.ctx 1) Demo.event None) "to" = VStr "child"
  ∧ prop (sendParent Demo.toEventObject Demo.getEventType Demo.T (VStr "PING")
            DemoMore.elsewhere) "delay" = VNum 10.
Proof.
  split; [reflexivity|].
  destruct (derived_senders_fix_the_target Demo.objectPrototype Demo.native Demo.toSCXMLEvent Demo.toEventObject
              Demo.getEventType Demo.T DemoMore.K (VStr "PING") (VStr "child")
              DemoMore.elsewhere (Demo.ctx 1) Demo.event None eq_refl)
    as (H1 & H2 & _ & _ & H5 & _).
  split; [exact H1|]. split; [exact H2|exact H5].
Defined.

Lemma send_id_survives_resolution_witness :
  prop (resolveSend Demo.objectPrototype Demo.native Demo.toSCXMLEvent
          (send Demo.toEventObject Demo.getEventType Demo.T (VStr "PING")
             (VObj {["id" := VStr "ping-1"]}))
          (Demo.ctx 1) Demo.event None) "id" = VStr "ping-1"
  ∧ prop (send Demo.toEventObject Demo.getEventType Demo.T (VStr "PING") VUndef) "id"
    = VStr "PING".
Proof.
  split.
  - destruct (send_id_survives_resolution Demo.objectPrototype Demo.native Demo.toSCXMLEvent Demo.toEventObject
                Demo.getEventType Demo.T (VStr "PING") (VObj {["id" := VStr "ping-1"]})
                (Demo.ctx 1) Demo.event None) as (H1 & H2 & _).
    rewrite H1. exact (H2 eq_refl eq_refl).
  - destruct (send_id_survives_resolution Demo.objectPrototype Demo.native Demo.toSCXMLEvent Demo.toEventObject
                Demo.getEventType Demo.T (VStr "PING") VUndef
                (Demo.ctx 1) Demo.event None) as (_ & _ & H3).
    exact (H3 (or_introl eq_refl)).
Defined.


Lemma log_resolves_witness :
  ∃ r, resolveLog Demo.native (log Demo.T VUndef (VStr "state")) (Demo.ctx 1) Demo.event
       = Ok r
       ∧ prop r "label" = VStr "state"
       ∧ prop r "value"
         = VObj (<["context" := Demo.ctx 1]> (<["event" := prop Demo.event "data"]> ∅)).
Proof.
  destruct (log_resolves Demo.native Demo.T VUndef (VStr "state") (Demo.ctx 1) Demo.event
              (or_intror (or_intror eq_refl))) as (r & Hr & Hl & _ & Hv & _).
  exists r. split; [exact Hr|]. split; [exact Hl|exact (Hv eq_refl)].
Defined.


Lemma resolution_of_concatenation_witness :
  Forall (λ a, kindOf Demo.T a ≠ KAssign) [Demo.pureIncrement; VObj Demo.pingLong]
  ∧ DemoMore.resolveIn false 2 (Demo.ctx 1)
      (Demo.assignThenLog ++ [Demo.pureIncrement; VObj Demo.pingLong])
    = ('(o1, c1, w1) ← DemoMore.resolveIn false 2 (Demo.ctx 1) Demo.assignThenLog;
       '(o2, c2, w2) ← DemoMore.resolveIn false 2 c1 [Demo.pureIncrement; VObj Demo.pingLong];
       Ok (o1 ++ o2, c2, w1 ++ w2)).
Proof.
  assert (H : Forall (λ a, kindOf Demo.T a ≠ KAssign) [Demo.pureIncrement; VObj Demo.pingLong]).
  { repeat constructor; discriminate. }
  split; [exact H|].
  exact (resolution_of_concatenation Demo.objectPrototype Demo.native Demo.stringOf Demo.toSCXMLEvent
           Demo.toArray Demo.updateContext Demo.evaluateGuard Demo.customFind Demo.T false 1 Demo.machine
           VUndef (Demo.ctx 1) Demo.event Demo.assignThenLog _ H).
Defined.

Lemma assigns_only_witness :
  Forall (λ a, kindOf Demo.T a = KAssign) [Demo.increment; Demo.increment]
  ∧ DemoMore.resolveIn false 1 (Demo.ctx 1) [Demo.increment; Demo.increment]
    = Ok ([], Demo.updateContext (Demo.ctx 1) Demo.event [Demo.increment; Demo.increment]
                VUndef, []).
Proof.
  assert (H : Forall (λ a, kindOf Demo.T a = KAssign) [Demo.increment; Demo.increment]).
  { repeat constructor. }
  split; [exact H|].
  exact (assigns_only Demo.objectPrototype Demo.native Demo.stringOf Demo.toSCXMLEvent
           Demo.toArray Demo.updateContext Demo.evaluateGuard Demo.customFind Demo.T false 0 Demo.machine
           VUndef (Demo.ctx 1) Demo.event _ H).
Defined.

Lemma production_writes_nothing_witness :
  ∃ out ctx' w,
    DemoMore.resolveIn true 1 (Demo.ctx 1) [VObj Demo.pingShort] = Ok (out, ctx', w)
    ∧ w = [].
Proof.
  eexists _, _, _. split; [reflexivity|].
  eapply (production_writes_nothing Demo.objectPrototype Demo.native Demo.stringOf Demo.toSCXMLEvent
            Demo.toArray Demo.updateContext Demo.evaluateGuard Demo.customFind Demo.T 1 Demo.machine
            VUndef (Demo.ctx 1) Demo.event [VObj Demo.pingShort]).
  reflexivity.
Defined.



Lemma resolved_actions_are_new_objects_witness :
  Forall (λ a, kindOf Demo.T (Refs.deref DemoMore.sendLogStore a)
               ∈ [KAssign; KRaise; KSend; KLog]) [VRef 0; VRef 1]
  ∧ ∃ out ctx' w σ',
      Demo.resolveRefs Demo.machine 1 (Demo.ctx 1) [VRef 0; VRef 1] DemoMore.sendLogStore
      = Ok ((out, ctx', w), σ')
      ∧ ∃ new, σ' = DemoMore.sendLogStore ++ new
               ∧ out = VRef <$> seq (length DemoMore.sendLogStore) (length new).
Proof.
  assert (H : Forall (λ a, kindOf Demo.T (Refs.deref DemoMore.sendLogStore a)
                           ∈ [KAssign; KRaise; KSend; KLog]) [VRef 0; VRef 1]).
  { repeat constructor. }
  split; [exact H|].
  eexists _, _, _, _. split; [reflexivity|].
  eapply (resolved_actions_are_new_objects Demo.objectPrototype Demo.native Demo.stringOf Demo.toSCXMLEvent
            Demo.toArray Demo.updateContext Demo.evaluateGuard Demo.customFind Demo.T false 1 Demo.machine
            VUndef (Demo.ctx 1) Demo.event [VRef 0; VRef 1]);
    [exact H|reflexivity].
Defined.

Lemma after_names_witness :
  after Demo.stringOf DemoMore.K (VStr "1000") (VStr "light") = "xstate.after(1000)#light"
  ∧ after Demo.stringOf DemoMore.K (VStr "1000") VUndef = "xstate.after(1000)".
Proof.
  destruct (after_names Demo.stringOf DemoMore.K (VStr "1000") VUndef "light" "light")
    as (H1 & _ & H3 & _).
  split.
  - rewrite H3 by discriminate. rewrite (H1 eq_refl). reflexivity.
  - rewrite (H1 eq_refl). reflexivity.
Defined.

Lemma empty_branching_is_no_action_witness :
  kindOf Demo.T (choose Demo.T []) = KChoose
  ∧ DemoMore.resolveIn false 1 (Demo.ctx 1)
      ([Demo.logCount] ++ choose Demo.T [] :: [VObj Demo.pingLong])
    = DemoMore.resolveIn false 1 (Demo.ctx 1) ([Demo.logCount] ++ [VObj Demo.pingLong]).
Proof.
  split; [reflexivity|].
  apply (empty_branching_is_no_action Demo.objectPrototype Demo.native Demo.stringOf Demo.toSCXMLEvent
           Demo.toArray Demo.updateContext Demo.evaluateGuard Demo.customFind Demo.T false 0 Demo.machine
           VUndef (Demo.ctx 1) Demo.event [Demo.logCount] [VObj Demo.pingLong]
           (choose Demo.T [])).
  left. split; reflexivity.
Defined.

Lemma branches_behind_unguarded_are_dead_witness :
  kindOf Demo.T (VObj Demo.evenOrOdd) = KChoose
  ∧ DemoMore.oddFields !! "cond" = None
  ∧ DemoMore.resolveIn false 2 (Demo.ctx 3) ([] ++ VObj Demo.evenOrOdd :: [])
    = DemoMore.resolveIn false 2 (Demo.ctx 3)
        ([] ++ VObj (<["conds" := VArr ([Demo.evenBranch] ++ VObj DemoMore.oddFields
                                         :: [Demo.evenBranch; Demo.evenBranch])]>
                       Demo.evenOrOdd) :: []).
Proof.
  split; [reflexivity|]. split; [reflexivity|].
  exact (branches_behind_unguarded_are_dead Demo.objectPrototype Demo.native Demo.stringOf Demo.toSCXMLEvent
           Demo.toArray Demo.updateContext Demo.evaluateGuard Demo.customFind Demo.T false Demo.evenOrOdd
           DemoMore.oddFields [Demo.evenBranch] [] [Demo.evenBranch; Demo.evenBranch] [] []
           Demo.machine VUndef (Demo.ctx 3) Demo.event 2 eq_refl eq_refl eq_refl).
Defined.
